(** * max-func-body-length: the rule walker of [src/maxFuncBodyLengthRule.ts]

    A shallow embedding of [MaxFunctionBodyLengthRuleWalker] and the statements
    of its specification.  The walker is a stateful visitor: its fields are the
    record [Walker], every method takes the walker and returns the updated one,
    and a JavaScript [throw] is the left summand of [Result]. *)

From Stdlib Require Import ZArith List String Ascii Bool Lia.
From Stdlib Require Import DecimalString.
Import ListNotations.

Open Scope string_scope.
Open Scope Z_scope.

(** ** Node kinds

    [ts.SyntaxKind], with the kinds the rule and its samples name; every other
    kind is an [OtherKind]. *)

Inductive SyntaxKind : Type :=
  | SourceFile
  | FunctionDeclaration
  | MethodDeclaration
  | ArrowFunction
  | Constructor
  | ClassDeclaration
  | ClassExpression
  | FunctionExpression
  | CallExpression
  | PropertyAccessExpression
  | Identifier
  | StringLiteral
  | Block
  | OtherKind (code : nat).

Definition SyntaxKind_eq_dec (a b : SyntaxKind) : {a = b} + {a <> b}.
Proof. decide equality; apply Nat.eq_dec. Defined.

(** ** Exceptions and the error monad *)

(** What the walker can throw: reading a property of [undefined] or [null]
    ([TypeError]), [new RegExp] on a malformed pattern ([SyntaxError]) and the
    two [throw new Error(`Unsupported node kind: ...`)] of the source. *)
Inductive Exception : Type :=
  | TypeError
  | SyntaxError (pattern : string)
  | UnsupportedNodeKind (nodeKind : SyntaxKind).

Definition Result (A : Type) : Type := (Exception + A)%type.

Definition ret {A} (a : A) : Result A := inr a.
Definition throw {A} (e : Exception) : Result A := inl e.
Definition bind {A B} (m : Result A) (k : A -> Result B) : Result B :=
  match m with
  | inl e => inl e
  | inr a => k a
  end.

Notation "x <- m ;; k" := (bind m (fun x => k))
  (at level 61, m at next level, right associativity).

(** ** JavaScript values the rule handles *)

(** A [number] field that may still be [undefined]. *)
Definition JsNumber : Type := option Z.

(** [result || fallback]: [undefined] and [0] are the falsy numbers. *)
Definition truthy (v : JsNumber) : bool :=
  match v with
  | Some z => negb (z =? 0)
  | None => false
  end.

Definition js_or (a b : JsNumber) : JsNumber := if truthy a then a else b.

(** [length > max]: a comparison with [undefined] is false. *)
Definition js_gt (length : Z) (max : JsNumber) : bool :=
  match max with
  | Some m => length >? m
  | None => false
  end.

Definition showZ (z : Z) : string := NilZero.string_of_int (Z.to_int z).

(** Template-literal interpolation [${ v }]. *)
Definition showNumber (v : JsNumber) : string :=
  match v with
  | Some z => showZ z
  | None => "undefined"
  end.

Definition showString (v : option string) : string :=
  match v with
  | Some s => s
  | None => "undefined"
  end.

(** ** The syntax tree

    A [ts.Node] as the walker reads it.  [children] is the list that
    [ts.forEachChild] enumerates, in source order; each child carries the
    property under which its parent holds it, so that [node.name], [node.body],
    [node.expression] and [node.arguments] are views of that one list and an
    argument is the very child the traversal descends into.  [nid] is the
    identity of the object ([===] on nodes compares it). *)

Inductive Role : Type :=
  | RExpression
  | RName
  | RArgument
  | RBody
  | RChild.

Definition Role_eqb (a b : Role) : bool :=
  match a, b with
  | RExpression, RExpression | RName, RName | RArgument, RArgument
  | RBody, RBody | RChild, RChild => true
  | _, _ => false
  end.

#[local] Unset Elimination Schemes.
Inductive Node : Type := MkNode {
  nid : nat;
  kind : SyntaxKind;
  pos : Z;
  end_ : Z;
  getStart : Z;
  text : option string;
  children : list (Role * Node)
}.

#[local] Set Elimination Schemes.

Definition getWidth (node : Node) : Z := end_ node - getStart node.

Definition property (r : Role) (node : Node) : option Node :=
  match filter (fun c => Role_eqb (fst c) r) (children node) with
  | c :: _ => Some (snd c)
  | [] => None
  end.

Definition name (node : Node) : option Node := property RName node.
Definition body (node : Node) : option Node := property RBody node.
Definition expression (node : Node) : option Node := property RExpression node.
Definition arguments (node : Node) : list Node :=
  map snd (filter (fun c => Role_eqb (fst c) RArgument) (children node)).

(** [ts.forEachChild(node, visit)] with a visitor that returns nothing: every
    child in order; an exception ends the iteration. *)
Definition forEachChild {S : Type} (visit : Node -> S -> Result S)
  : list (Role * Node) -> S -> Result S :=
  fix each (cs : list (Role * Node)) (s : S) : Result S :=
    match cs with
    | [] => ret s
    | c :: cs' => s' <- visit (snd c) s ;; each cs' s'
    end.

(** [array.forEach(f)] for a callback that updates the walker. *)
Fixpoint forEach {A S : Type} (f : A -> S -> Result S) (l : list A) (s : S)
  : Result S :=
  match l with
  | [] => ret s
  | a :: l' => s' <- f a s ;; forEach f l' s'
  end.

(** The source file: the root of the tree and the line map behind
    [getLineAndCharacterOfPosition] (the offsets at which lines start, the
    first one being 0). *)
Record TsSourceFile : Type := MkSourceFile {
  root : Node;
  lineStarts : list Z
}.

Record LineAndCharacter : Type := MkLineAndCharacter {
  line : Z;
  character : Z
}.

(** The 0-indexed line of an offset is the index of the last line start at or
    before it. *)
Definition getLineAndCharacterOfPosition (sf : TsSourceFile) (position : Z)
  : LineAndCharacter :=
  let before := filter (fun s => s <=? position) (lineStarts sf) in
  {| line := Z.of_nat (List.length before) - 1;
     character := position - last before 0 |}.

(** ** Configuration *)

(** The object form of an option entry: the value under each of the five keys,
    [None] when the key is absent. *)
Record OptionsObject : Type := MkOptionsObject {
  func_body_length : JsNumber;
  arrow_body_length : JsNumber;
  method_body_length : JsNumber;
  ctor_body_length : JsNumber;
  ignore_parameters_to_function_regex : option string
}.

(** One entry of the rule arguments, by its [typeof]: a number, an object,
    [null] (whose [typeof] is ['object'] too) or anything else. *)
Inductive OptionEntry : Type :=
  | OptNumber (n : Z)
  | OptObject (o : OptionsObject)
  | OptNull
  | OptOther.

(** A failure as [createFailure(start, width, text)] builds it.  [failureNode]
    is a ghost field: the identity of the node the failure is anchored to, kept
    so that statements can say which node a failure belongs to. *)
Record RuleFailure : Type := MkRuleFailure {
  startPosition : Z;
  width : Z;
  failure : string;
  failureNode : nat
}.

Definition getEndPosition (f : RuleFailure) : Z := startPosition f + width f.

(** [f.equals(g)] of [RuleFailure]: the same message and the same start and
    end positions (the failures of one walk are all in one file). *)
Definition RuleFailure_equals (f g : RuleFailure) : bool :=
  String.eqb (failure f) (failure g)
  && (startPosition f =? startPosition g)
  && (getEndPosition f =? getEndPosition g).

(** A stretch of the file in which the rule is switched off by a
    [tslint:disable] comment. *)
Record IDisabledInterval : Type := MkDisabledInterval {
  intervalStart : Z;
  intervalEnd : Z
}.

(** [doesIntersect(failure, disabledIntervals)] of the rule runner: some
    interval overlaps the span of the failure. *)
Definition doesIntersect (f : RuleFailure)
  (intervals : list IDisabledInterval) : bool :=
  existsb (fun interval =>
             let maxStart := Z.max (intervalStart interval) (startPosition f) in
             let minEnd := Z.min (intervalEnd interval) (getEndPosition f) in
             maxStart <=? minEnd)
          intervals.

(** [Lint.IOptions], what the rule runner hands to the rule: the rule
    arguments of the configuration and the disabled intervals of the file. *)
Record IOptions : Type := MkOptions {
  ruleArguments : list OptionEntry;
  ruleDisabledIntervals : list IDisabledInterval
}.

(** The regular expressions of the host: [new RegExp(s)] ([None] when it throws
    a [SyntaxError]) and [r.test(s)]. *)
Class RegExpEngine : Type := {
  RegExp : Type;
  RegExp_new : string -> option RegExp;
  RegExp_test : RegExp -> string -> bool
}.

(** ** The walker *)

Section Walker.

Context {engine : RegExpEngine}.

(** The fields of [MaxFunctionBodyLengthRuleWalker], with the four it inherits
    from [Lint.RuleWalker] ([sourceFile], [options], [failures],
    [disabledIntervals]). *)
Record Walker : Type := MkWalker {
  sourceFile : TsSourceFile;
  options : list OptionEntry;
  failures : list RuleFailure;
  disabledIntervals : list IDisabledInterval;
  maxBodyLength : JsNumber;
  maxFuncBodyLength : JsNumber;
  maxArrowBodyLength : JsNumber;
  maxMethodBodyLength : JsNumber;
  maxCtorBodyLength : JsNumber;
  currentClassName : option string;
  ignoreParametersToFunctionRegex : option RegExp;
  ignoreNodes : list nat
}.

Definition set_maxBodyLength (v : JsNumber) (w : Walker) : Walker :=
  MkWalker (sourceFile w) (options w) (failures w)
    (disabledIntervals w) v (maxFuncBodyLength w)
    (maxArrowBodyLength w) (maxMethodBodyLength w) (maxCtorBodyLength w)
    (currentClassName w) (ignoreParametersToFunctionRegex w) (ignoreNodes w).

Definition set_kindLengths (f a m c : JsNumber) (w : Walker) : Walker :=
  MkWalker (sourceFile w) (options w) (failures w)
    (disabledIntervals w) (maxBodyLength w) f a m c
    (currentClassName w) (ignoreParametersToFunctionRegex w) (ignoreNodes w).

Definition set_ignoreParametersToFunctionRegex (r : option RegExp) (w : Walker)
  : Walker :=
  MkWalker (sourceFile w) (options w) (failures w)
    (disabledIntervals w) (maxBodyLength w)
    (maxFuncBodyLength w) (maxArrowBodyLength w) (maxMethodBodyLength w)
    (maxCtorBodyLength w) (currentClassName w) r (ignoreNodes w).

Definition set_currentClassName (c : option string) (w : Walker) : Walker :=
  MkWalker (sourceFile w) (options w) (failures w)
    (disabledIntervals w) (maxBodyLength w)
    (maxFuncBodyLength w) (maxArrowBodyLength w) (maxMethodBodyLength w)
    (maxCtorBodyLength w) c (ignoreParametersToFunctionRegex w) (ignoreNodes w).

Definition set_ignoreNodes (l : list nat) (w : Walker) : Walker :=
  MkWalker (sourceFile w) (options w) (failures w)
    (disabledIntervals w) (maxBodyLength w)
    (maxFuncBodyLength w) (maxArrowBodyLength w) (maxMethodBodyLength w)
    (maxCtorBodyLength w) (currentClassName w)
    (ignoreParametersToFunctionRegex w) l.

(** [this.failures.push(failure)]. *)
Definition pushFailure (f : RuleFailure) (w : Walker) : Walker :=
  MkWalker (sourceFile w) (options w) (failures w ++ [f])
    (disabledIntervals w) (maxBodyLength w)
    (maxFuncBodyLength w) (maxArrowBodyLength w) (maxMethodBodyLength w)
    (maxCtorBodyLength w) (currentClassName w)
    (ignoreParametersToFunctionRegex w) (ignoreNodes w).

Definition existsFailure (w : Walker) (f : RuleFailure) : bool :=
  existsb (fun g => RuleFailure_equals g f) (failures w).

(** [this.addFailure(failure)] of [Lint.RuleWalker]: the failure goes to the
    end of the list, unless an equal failure is recorded already or the
    failure intersects an interval in which the rule is disabled. *)
Definition addFailure (f : RuleFailure) (w : Walker) : Walker :=
  if negb (existsFailure w f) && negb (doesIntersect f (disabledIntervals w))
  then pushFailure f w
  else w.

Definition getSourceFile (w : Walker) : TsSourceFile := sourceFile w.
Definition getOptions (w : Walker) : list OptionEntry := options w.
Definition getFailures (w : Walker) : list RuleFailure := failures w.

(** *** Helpers of [utils/] *)

(** Modelled from the spec: [Utils.contains] of [utils/Utils.ts], which is not
    among the sources.  Membership in the suppression set is by node
    identity. *)
Definition contains (items : list nat) (element : Node) : bool :=
  existsb (fun item => Nat.eqb item (nid element)) items.

(** Modelled from the spec: [Utils.removeAll] of [utils/Utils.ts], which is not
    among the sources.  Removal is by node identity, with set-difference
    semantics: every entry that is one of [elementsToRemove] goes. *)
Definition removeAll (source : list nat) (elementsToRemove : list Node)
  : list nat :=
  filter (fun sourceElement =>
            negb (existsb (fun e => Nat.eqb sourceElement (nid e))
                    elementsToRemove))
         source.

(** Modelled from the spec: [AstUtils.getFunctionName] of [utils/AstUtils.ts],
    which is not among the sources.  The callee's own text when it is a plain
    identifier, otherwise the text of its trailing name ([a.b.c] gives [c]);
    [undefined] when there is neither. *)
Definition getFunctionName (node : Node) : Result (option string) :=
  match expression node with
  | None => throw TypeError
  | Some callee =>
      match text callee with
      | Some functionName => ret (Some functionName)
      | None =>
          match name callee with
          | Some n => ret (text n)
          | None => ret None
          end
      end
  end.

(** *** [parseOptions] *)

Definition parseOption (opt : OptionEntry) (w : Walker) : Result Walker :=
  match opt with
  | OptNumber n => ret (set_maxBodyLength (Some n) w)
  | OptObject o =>
      let w := set_kindLengths (func_body_length o) (arrow_body_length o)
                 (method_body_length o) (ctor_body_length o) w in
      match ignore_parameters_to_function_regex o with
      | Some regex =>
          if String.eqb regex "" then ret w
          else match RegExp_new regex with
               | Some r => ret (set_ignoreParametersToFunctionRegex (Some r) w)
               | None => throw (SyntaxError regex)
               end
      | None => ret w
      end
  | OptNull => throw TypeError
  | OptOther => ret w
  end.

Definition parseOptions (w : Walker) : Result Walker :=
  forEach parseOption (getOptions w) w.

(** The constructor: [super(sourceFile, options)], which keeps the rule
    arguments and the disabled intervals and starts with no failure, the field
    initialisers, then [this.parseOptions()]. *)
Definition newWalker (sf : TsSourceFile) (opts : IOptions) : Result Walker :=
  parseOptions
    (MkWalker sf (ruleArguments opts) [] (ruleDisabledIntervals opts)
       None None None None None None None []).

(** *** Thresholds and labels *)

Definition getFuncTypeText (nodeKind : SyntaxKind) : Result string :=
  match nodeKind with
  | FunctionDeclaration => ret "function"
  | MethodDeclaration => ret "method"
  | ArrowFunction => ret "arrow function"
  | Constructor => ret "constructor"
  | _ => throw (UnsupportedNodeKind nodeKind)
  end.

Definition getMaxLength (w : Walker) (nodeKind : SyntaxKind) : Result JsNumber :=
  result <- match nodeKind with
            | FunctionDeclaration => ret (maxFuncBodyLength w)
            | MethodDeclaration => ret (maxMethodBodyLength w)
            | ArrowFunction => ret (maxArrowBodyLength w)
            | Constructor => ret (maxCtorBodyLength w)
            | _ => throw (UnsupportedNodeKind nodeKind)
            end ;;
  ret (js_or result (maxBodyLength w)).

Definition isFunctionTooLong (w : Walker) (nodeKind : SyntaxKind) (length : Z)
  : Result bool :=
  max <- getMaxLength w nodeKind ;;
  ret (js_gt length max).

Definition calcBodyLength (w : Walker) (node : Node) : Z :=
  match body node with
  | None => 0
  | Some b =>
      let sourceFile := getSourceFile w in
      let startLine := line (getLineAndCharacterOfPosition sourceFile (pos b)) in
      let endLine := line (getLineAndCharacterOfPosition sourceFile (end_ b)) in
      endLine - startLine
  end.

(** *** Messages *)

(** [(<any>node.name).text]: a [TypeError] when the node has no name. *)
Definition nameText (node : Node) : Result (option string) :=
  match name node with
  | Some n => ret (text n)
  | None => throw TypeError
  end.

Definition formatPlaceText (w : Walker) (node : Node) : Result string :=
  funcTypeText <- getFuncTypeText (kind node) ;;
  match kind node with
  | MethodDeclaration | FunctionDeclaration =>
      n <- nameText node ;;
      ret (" in " ++ funcTypeText ++ " " ++ showString n ++ "()")
  | Constructor => ret (" in class " ++ showString (currentClassName w))
  | _ => ret ""
  end.

Definition formatFailureText (w : Walker) (node : Node) (length : Z)
  : Result string :=
  funcTypeText <- getFuncTypeText (kind node) ;;
  maxLength <- getMaxLength w (kind node) ;;
  placeText <- formatPlaceText w node ;;
  ret ("Max " ++ funcTypeText ++ " body length exceeded" ++ placeText
       ++ " - max: " ++ showNumber maxLength
       ++ ", actual: " ++ showZ length).

Definition createFailure (start width : Z) (failure : string) (node : Node)
  : RuleFailure :=
  MkRuleFailure start width failure (nid node).

Definition addFuncBodyTooLongFailure (node : Node) (length : Z) (w : Walker)
  : Result Walker :=
  message <- formatFailureText w node length ;;
  ret (addFailure (createFailure (getStart node) (getWidth node) message node) w).

Definition validate (node : Node) (w : Walker) : Result Walker :=
  if negb (contains (ignoreNodes w) node) then
    let bodyLength := calcBodyLength w node in
    tooLong <- isFunctionTooLong w (kind node) bodyLength ;;
    if tooLong then addFuncBodyTooLongFailure node bodyLength w
    else ret w
  else ret w.

(** *** The visitor

    [super] stands for the inherited method of [Lint.RuleWalker], which walks
    the children of the node. *)

Definition Visit : Type := Node -> Walker -> Result Walker.

Definition push (l : list nat) (argument : Node) : list nat :=
  l ++ [nid argument].

Definition visitCallExpression (super : Visit) (node : Node) (w : Walker)
  : Result Walker :=
  functionName <- getFunctionName node ;;
  if match ignoreParametersToFunctionRegex w with
     | Some regex => RegExp_test regex (showString functionName)
     | None => false
     end
  then
    let w := set_ignoreNodes
               (fold_left push (arguments node) (ignoreNodes w)) w in
    w <- super node w ;;
    ret (set_ignoreNodes (removeAll (ignoreNodes w) (arguments node)) w)
  else super node w.

Definition visitArrowFunction (super : Visit) (node : Node) (w : Walker)
  : Result Walker :=
  w <- validate node w ;; super node w.

Definition visitMethodDeclaration (super : Visit) (node : Node) (w : Walker)
  : Result Walker :=
  w <- validate node w ;; super node w.

Definition visitFunctionDeclaration (super : Visit) (node : Node) (w : Walker)
  : Result Walker :=
  w <- validate node w ;; super node w.

Definition visitConstructorDeclaration (super : Visit) (node : Node)
  (w : Walker) : Result Walker :=
  w <- validate node w ;; super node w.

Definition visitClassDeclaration (super : Visit) (node : Node) (w : Walker)
  : Result Walker :=
  className <- nameText node ;;
  w <- super node (set_currentClassName className w) ;;
  ret (set_currentClassName None w).

(** [walkChildren(node)] of the base walker. *)
Definition walkChildren (visitNode : Visit) : Visit :=
  fun node => forEachChild visitNode (children node).

(** [visitNode] of the base walker dispatches on the kind of the node to the
    [visit...] method for it; the kinds this rule does not override walk their
    children. *)
Fixpoint visitNode (node : Node) (w : Walker) {struct node} : Result Walker :=
  match kind node with
  | CallExpression => visitCallExpression (walkChildren visitNode) node w
  | ArrowFunction => visitArrowFunction (walkChildren visitNode) node w
  | MethodDeclaration => visitMethodDeclaration (walkChildren visitNode) node w
  | FunctionDeclaration =>
      visitFunctionDeclaration (walkChildren visitNode) node w
  | Constructor => visitConstructorDeclaration (walkChildren visitNode) node w
  | ClassDeclaration => visitClassDeclaration (walkChildren visitNode) node w
  | _ => walkChildren visitNode node w
  end.

(** [walker.walk(sourceFile)]. *)
Definition walk (sf : TsSourceFile) (w : Walker) : Result Walker :=
  visitNode (root sf) w.

(** [Rule.apply]: build the walker, walk the file, return the failures. *)
Definition apply (sf : TsSourceFile) (opts : IOptions)
  : Result (list RuleFailure) :=
  w <- newWalker sf opts ;;
  w <- walk sf w ;;
  ret (getFailures w).

End Walker.

(** ** A regular-expression engine for running the model

    The fragment of patterns made of letters and digits only: such a pattern
    compiles and [test] looks for it as a substring, as in JavaScript.  A
    pattern outside the fragment is reported as not compiling; the inputs below
    use it only on ["("], which [new RegExp] rejects as an unterminated
    group. *)

Definition isAlphaNum (c : ascii) : bool :=
  let n := nat_of_ascii c in
  ((48 <=? n) && (n <=? 57) || (65 <=? n) && (n <=? 90)
   || (97 <=? n) && (n <=? 122))%nat.

Fixpoint allChars (p : ascii -> bool) (s : string) : bool :=
  match s with
  | EmptyString => true
  | String c s' => p c && allChars p s'
  end.

Fixpoint includes (needle hay : string) : bool :=
  if prefix needle hay then true
  else match hay with
       | EmptyString => false
       | String _ hay' => includes needle hay'
       end.

Definition LiteralEngine : RegExpEngine :=
  {| RegExp := string;
     RegExp_new := fun s => if allChars isAlphaNum s then Some s else None;
     RegExp_test := fun r s => includes r s |}.

(** ** Sample trees *)

Module Sample.

Definition leaf (id : nat) (k : SyntaxKind) (t : string) : Node :=
  MkNode id k 0 0 0 (Some t) [].

(** A block from offset [p] to offset [e]. *)
Definition block (id : nat) (p e : Z) (cs : list Node) : Node :=
  MkNode id Block p e p None (map (pair RChild) cs).

(** A function-like node of kind [k]; [nm] is its name node, [b] its body. *)
Definition func (id : nat) (k : SyntaxKind) (nm b : option Node) : Node :=
  MkNode id k 0 100 0 None
    (match nm with Some n => [(RName, n)] | None => [] end
     ++ match b with Some n => [(RBody, n)] | None => [] end).

Definition call (id : nat) (callee : Node) (args : list Node) : Node :=
  MkNode id CallExpression 0 100 0 None
    ((RExpression, callee) :: map (pair RArgument) args).

Definition class (id : nat) (nm : option Node) (members : list Node) : Node :=
  MkNode id ClassDeclaration 0 100 0 None
    (match nm with Some n => [(RName, n)] | None => [] end
     ++ map (pair RChild) members).

(** A file of ten lines, each of ten characters. *)
Definition file (id : nat) (statements : list Node) : TsSourceFile :=
  MkSourceFile (MkNode id SourceFile 0 100 0 None (map (pair RChild) statements))
    [0; 10; 20; 30; 40; 50; 60; 70; 80; 90].

Definition lengths (f a m c : JsNumber) (regex : option string) : OptionEntry :=
  OptObject (MkOptionsObject f a m c regex).

(** The options of the rule for a file without [tslint:disable] comments. *)
Definition rule (arguments : list OptionEntry) : IOptions :=
  MkOptions arguments [].

(** [class C { foo() { ...five line breaks... } bar() { } }] *)
Definition foo_body : Node := block 5 15 65 [].
Definition foo : Node :=
  func 3 MethodDeclaration (Some (leaf 4 Identifier "foo")) (Some foo_body).
Definition bar_body : Node := block 8 72 78 [].
Definition bar : Node :=
  func 6 MethodDeclaration (Some (leaf 7 Identifier "bar")) (Some bar_body).
Definition method_foo : TsSourceFile :=
  file 0 [class 1 (Some (leaf 2 Identifier "C")) [foo; bar]].

(** [describe('x', () => { function inner() { ...four line breaks... } })],
    the body of the arrow function spanning six. *)
Definition inner : Node :=
  func 6 FunctionDeclaration (Some (leaf 7 Identifier "inner"))
    (Some (block 8 25 65 [])).
Definition arrow : Node :=
  func 4 ArrowFunction None (Some (block 5 15 75 [inner])).
Definition describe_call : Node :=
  call 1 (leaf 2 Identifier "describe") [leaf 3 StringLiteral "x"; arrow].
Definition describe_nested : TsSourceFile := file 0 [describe_call].
Definition describe_options : IOptions :=
  rule [OptNumber 1; lengths None None None None (Some "describe")].

(** [class A { m() { class B {} } constructor() { ...three line breaks... } }] *)
Definition nested_class : TsSourceFile :=
  file 0 [class 1 (Some (leaf 2 Identifier "A"))
            [func 3 MethodDeclaration (Some (leaf 4 Identifier "m"))
               (Some (block 5 12 18 [class 6 (Some (leaf 7 Identifier "B")) []]));
             func 8 Constructor None (Some (block 9 25 55 []))]].

(** [const K = class { constructor() { ...three line breaks... } }]: a
    constructor that no class declaration encloses. *)
Definition class_expression : TsSourceFile :=
  file 0 [MkNode 1 ClassExpression 0 100 0 None
            [(RChild, func 2 Constructor None (Some (block 3 25 55 [])))]].

(** [declare function f();]: a function declaration without a body. *)
Definition ambient_f : Node :=
  func 1 FunctionDeclaration (Some (leaf 2 Identifier "f")) None.
Definition ambient_function : TsSourceFile := file 0 [ambient_f].

(** [export default class { }] *)
Definition anonymous : Node := class 1 None [].
Definition anonymous_class : TsSourceFile := file 0 [anonymous].

(** [class A { m() { } constructor() { ...three line breaks... } }] *)
Definition plain_m : Node :=
  func 3 MethodDeclaration (Some (leaf 4 Identifier "m"))
    (Some (block 5 12 18 [])).
Definition plain_ctor : Node :=
  func 6 Constructor None (Some (block 7 25 55 [])).
Definition plain_A : Node :=
  class 1 (Some (leaf 2 Identifier "A")) [plain_m; plain_ctor].
Definition plain_class : TsSourceFile := file 0 [plain_A].

(** [x; { 'y' }]: a file without functions, calls or classes. *)
Definition no_functions : TsSourceFile :=
  file 0 [leaf 1 Identifier "x"; block 2 0 5 [leaf 3 StringLiteral "y"]].

(** [function f()] with its body [{ return 1; }] on the next line: the raw
    start of the body is the offset 12 of the line break, before the leading
    trivia; its text runs from 13 to 26, all on the second line. *)
Definition next_line_body : Node := MkNode 3 Block 12 26 13 None [].
Definition next_line_f : Node :=
  MkNode 1 FunctionDeclaration 0 26 0 None
    [(RName, MkNode 2 Identifier 8 10 9 (Some "f") []);
     (RBody, next_line_body)].
Definition brace_on_next_line : TsSourceFile :=
  MkSourceFile (MkNode 0 SourceFile 0 27 0 None [(RChild, next_line_f)])
    [0; 13; 27].

(** Options with the rule disabled from offset 200 to offset 300. *)
Definition disabled_elsewhere (arguments : list OptionEntry) : IOptions :=
  MkOptions arguments [MkDisabledInterval 200 300].

(** Options in layers: a fallback, a method maximum, a function maximum with
    a pattern, an arrow maximum, a second fallback. *)
Definition layered_options : IOptions :=
  rule [OptNumber 50;
        lengths None None (Some 3) None None;
        lengths (Some 7) None None None (Some "describe");
        lengths None (Some 9) None None None;
        OptNumber 20].

(** The walker that the constructor builds for a file and its options. *)
Definition walkerFor (sf : TsSourceFile) (opts : IOptions)
  : Walker (engine := LiteralEngine) :=
  match newWalker sf opts with
  | inr w => w
  | inl _ =>
      MkWalker sf (ruleArguments opts) [] (ruleDisabledIntervals opts)
        None None None None None None None []
  end.

(** The walker after it has visited a node. *)
Definition after (node : Node) (w : Walker (engine := LiteralEngine))
  : Walker (engine := LiteralEngine) :=
  match visitNode node w with
  | inr w' => w'
  | inl _ => w
  end.

End Sample.

(** ** Specification-side definitions *)

Section Specification.

Context {engine : RegExpEngine}.

(** The four kinds the length evaluator supports. *)
Definition supported (k : SyntaxKind) : bool :=
  match k with
  | FunctionDeclaration | MethodDeclaration | ArrowFunction | Constructor => true
  | _ => false
  end.

(** The maximum configured for a kind on its own. *)
Definition perKindMaximum (w : Walker) (k : SyntaxKind) : JsNumber :=
  match k with
  | FunctionDeclaration => maxFuncBodyLength w
  | MethodDeclaration => maxMethodBodyLength w
  | ArrowFunction => maxArrowBodyLength w
  | Constructor => maxCtorBodyLength w
  | _ => None
  end.

(** Threshold resolution in the words of the specification: the per-kind
    maximum when it is set and not zero, otherwise the numeric fallback,
    which may itself be unset. *)
Definition resolvedThreshold (w : Walker) (k : SyntaxKind) : JsNumber :=
  match perKindMaximum w k with
  | Some t => if t =? 0 then maxBodyLength w else Some t
  | None => maxBodyLength w
  end.

(** The kind label and the place clause of a message, in the words of the
    specification. *)
Definition kindLabel (k : SyntaxKind) : string :=
  match k with
  | FunctionDeclaration => "function"
  | MethodDeclaration => "method"
  | ArrowFunction => "arrow function"
  | Constructor => "constructor"
  | _ => ""
  end.

Definition placeClause (w : Walker) (node : Node) : string :=
  match kind node with
  | FunctionDeclaration | MethodDeclaration =>
      " in " ++ kindLabel (kind node) ++ " "
      ++ showString (match name node with Some n => text n | None => None end)
      ++ "()"
  | Constructor => " in class " ++ showString (currentClassName w)
  | _ => ""
  end.

Definition messageShape (label place : string) (threshold : JsNumber)
  (length : Z) : string :=
  "Max " ++ label ++ " body length exceeded" ++ place
  ++ " - max: " ++ showNumber threshold ++ ", actual: " ++ showZ length.

(** A message whose printed threshold is a number that the printed length
    exceeds. *)
Definition exceedsPrintedMax (f : RuleFailure) : Prop :=
  exists (label place : string) (threshold length : Z),
    failure f = messageShape label place (Some threshold) length
    /\ threshold < length.

(** The callee name of the call matches the configured pattern. *)
Definition suppresses (w : Walker) (call : Node) : Prop :=
  exists regex functionName,
    ignoreParametersToFunctionRegex w = Some regex
    /\ getFunctionName call = inr functionName
    /\ RegExp_test regex (showString functionName) = true.

(** The nodes of a subtree, the root first, and their identities. *)
Fixpoint descendants (node : Node) : list Node :=
  node :: flat_map (fun c => descendants (snd c)) (children node).

Fixpoint ids (node : Node) : list nat :=
  nid node :: flat_map (fun c => ids (snd c)) (children node).

Definition childIds (cs : list (Role * Node)) : list nat :=
  flat_map (fun c => ids (snd c)) cs.

(** What is left to do once the children of a node have been walked. *)
Inductive Leave : Type :=
  | LeaveCall
  | LeaveClass
  | LeaveNothing.

(** The part of a [visit...] method before the call to [super]. *)
Definition enter (node : Node) (w : Walker) : Result (Walker * Leave) :=
  match kind node with
  | CallExpression =>
      functionName <- getFunctionName node ;;
      if match ignoreParametersToFunctionRegex w with
         | Some regex => RegExp_test regex (showString functionName)
         | None => false
         end
      then ret (set_ignoreNodes
                  (fold_left push (arguments node) (ignoreNodes w)) w,
                LeaveCall)
      else ret (w, LeaveNothing)
  | ArrowFunction | MethodDeclaration | FunctionDeclaration | Constructor =>
      w <- validate node w ;; ret (w, LeaveNothing)
  | ClassDeclaration =>
      className <- nameText node ;;
      ret (set_currentClassName className w, LeaveClass)
  | _ => ret (w, LeaveNothing)
  end.

(** The part after the call to [super]. *)
Definition leave (l : Leave) (node : Node) (w : Walker) : Walker :=
  match l with
  | LeaveCall =>
      set_ignoreNodes (removeAll (ignoreNodes w) (arguments node)) w
  | LeaveClass => set_currentClassName None w
  | LeaveNothing => w
  end.

(** What one visit does to the suppression list and to the failures, for a
    subtree whose identities are [S]: an identity outside [S] stays
    suppressed, and every new failure is anchored in [S], at a node that was
    not suppressed when the visit began. *)
Definition Scoped (S : list nat) (w w' : Walker) : Prop :=
  (forall i, In i (ignoreNodes w) -> ~ In i S -> In i (ignoreNodes w'))
  /\ exists new,
       failures w' = (failures w ++ new)%list
       /\ Forall (fun f => In (failureNode f) S
                           /\ ~ In (failureNode f) (ignoreNodes w)) new.

(** The suppression property as the specification words it: no failure at
    all for any supported node anywhere below an argument of a call that
    suppresses. *)
Definition subtreeExempt (sf : TsSourceFile) (opts : IOptions) : Prop :=
  forall w fs call a f,
    newWalker sf opts = inr w ->
    apply sf opts = inr fs ->
    In call (descendants (root sf)) ->
    kind call = CallExpression ->
    suppresses w call ->
    In a (arguments call) ->
    In f (descendants a) ->
    supported (kind f) = true ->
    Forall (fun x => failureNode x <> nid f) fs.

(** The number of lines that start after the offset [lo] and at or before the
    offset [hi]. *)
Definition lineStartsWithin (sf : TsSourceFile) (lo hi : Z) : Z :=
  Z.of_nat
    (List.length (filter (fun s => (lo <? s) && (s <=? hi)) (lineStarts sf))).

(** The one-line property as the specification words it: a body whose text,
    from its first token to its end, is on one source line has length 0. *)
Definition oneLineBodyIsZero (w : Walker) (node : Node) : Prop :=
  forall b,
    body node = Some b ->
    line (getLineAndCharacterOfPosition (getSourceFile w) (getStart b))
    = line (getLineAndCharacterOfPosition (getSourceFile w) (end_ b)) ->
    calcBodyLength w node = 0.

(** The property of nodes without a body as the specification words it: for
    every configuration, length 0 and no violation. *)
Definition bodilessNeverFlagged (sf : TsSourceFile) (opts : IOptions)
  (node : Node) : Prop :=
  forall w,
    newWalker sf opts = inr w ->
    supported (kind node) = true ->
    body node = None ->
    calcBodyLength w node = 0 /\ validate node w = inr w.

(** Induction on the tree. *)
Fixpoint Node_induction (P : Node -> Prop)
  (step : forall node, Forall (fun c => P (snd c)) (children node) -> P node)
  (node : Node) {struct node} : P node :=
  step node
    ((fix each (cs : list (Role * Node)) : Forall (fun c => P (snd c)) cs :=
        match cs with
        | [] => Forall_nil _
        | c :: cs' => Forall_cons c (Node_induction P step (snd c)) (each cs')
        end) (children node)).

(** ** Definitions for the properties of the options and of the walk *)

(** The last number among the option entries, the last object among them, and
    the last non-empty pattern that an object among them carries. *)
Fixpoint lastNumber (opts : list OptionEntry) : JsNumber :=
  match opts with
  | [] => None
  | opt :: rest =>
      match lastNumber rest with
      | Some n => Some n
      | None => match opt with OptNumber n => Some n | _ => None end
      end
  end.

Fixpoint lastObject (opts : list OptionEntry) : option OptionsObject :=
  match opts with
  | [] => None
  | opt :: rest =>
      match lastObject rest with
      | Some o => Some o
      | None => match opt with OptObject o => Some o | _ => None end
      end
  end.

Definition patternOf (opt : OptionEntry) : option string :=
  match opt with
  | OptObject o =>
      match ignore_parameters_to_function_regex o with
      | Some regex => if String.eqb regex "" then None else Some regex
      | None => None
      end
  | _ => None
  end.

Fixpoint lastPattern (opts : list OptionEntry) : option string :=
  match opts with
  | [] => None
  | opt :: rest =>
      match lastPattern rest with
      | Some s => Some s
      | None => patternOf opt
      end
  end.

(** An entry that [parseOptions] gets past: not [null], and its pattern, if it
    has one, compiles. *)
Definition entryParses (opt : OptionEntry) : Prop :=
  opt <> OptNull
  /\ forall regex, patternOf opt = Some regex -> RegExp_new regex <> None.

(** Two walkers with the same source file, options, thresholds, pattern and
    disabled intervals. *)
Definition sameConfiguration (w w' : Walker) : Prop :=
  sourceFile w' = sourceFile w
  /\ options w' = options w
  /\ maxBodyLength w' = maxBodyLength w
  /\ maxFuncBodyLength w' = maxFuncBodyLength w
  /\ maxArrowBodyLength w' = maxArrowBodyLength w
  /\ maxMethodBodyLength w' = maxMethodBodyLength w
  /\ maxCtorBodyLength w' = maxCtorBodyLength w
  /\ ignoreParametersToFunctionRegex w' = ignoreParametersToFunctionRegex w
  /\ disabledIntervals w' = disabledIntervals w.

(** The nodes whose visit reads a property that must be there: the callee of a
    call, the name of a class, function or method declaration. *)
Definition wellNamed (node : Node) : bool :=
  match kind node with
  | CallExpression =>
      match expression node with Some _ => true | None => false end
  | ClassDeclaration | FunctionDeclaration | MethodDeclaration =>
      match name node with Some _ => true | None => false end
  | _ => true
  end.

(** [f] is the failure for node [d] under the configuration of [w]: [d] is of
    a supported kind, its body is longer than the threshold of its kind, and
    [f] spans [d] from its start and carries the message for that threshold
    and length. *)
Definition reportOf (w : Walker) (d : Node) (f : RuleFailure) : Prop :=
  supported (kind d) = true
  /\ failureNode f = nid d
  /\ startPosition f = getStart d
  /\ width f = getWidth d
  /\ exists t place,
       resolvedThreshold w (kind d) = Some t
       /\ t < calcBodyLength w d
       /\ failure f = messageShape (kindLabel (kind d)) place (Some t)
                        (calcBodyLength w d).

(** The rule is disabled somewhere on the span of the node: an interval of
    the walker overlaps the stretch from the start of the node over its
    width. *)
Definition disabledAt (w : Walker) (d : Node) : bool :=
  doesIntersect (MkRuleFailure (getStart d) (getWidth d) "" (nid d))
    (disabledIntervals w).

(** [f] spans [d] and carries the message of [d] under the configuration of
    [w], for a threshold that the body length of [d] exceeds. *)
Definition reportsSpanOf (w : Walker) (d : Node) (f : RuleFailure) : Prop :=
  startPosition f = getStart d
  /\ width f = getWidth d
  /\ exists t place,
       resolvedThreshold w (kind d) = Some t
       /\ t < calcBodyLength w d
       /\ failure f = messageShape (kindLabel (kind d)) place (Some t)
                        (calcBodyLength w d).

(** [i] is the identity of an argument of a call below [node] whose callee
    name matches the pattern of [w]. *)
Definition suppressedId (w : Walker) (node : Node) (i : nat) : Prop :=
  exists call a,
    In call (descendants node)
    /\ kind call = CallExpression
    /\ suppresses w call
    /\ In a (arguments call)
    /\ nid a = i.

(** ** Basic facts *)

Lemma bind_inr {A B} (m : Result A) (k : A -> Result B) (b : B) :
  bind m k = inr b -> exists a, m = inr a /\ k a = inr b.
Proof.
  destruct m as [e | a]; simpl; intros H; [discriminate | eauto].
Qed.

Lemma bind_inl {A B} (m : Result A) (k : A -> Result B) (e : Exception) :
  m = inl e -> bind m k = inl e.
Proof. intros ->; reflexivity. Qed.

Lemma addFailure_cases (f : RuleFailure) (w : Walker) :
  addFailure f w = w \/ addFailure f w = pushFailure f w.
Proof.
  unfold addFailure.
  destruct (negb (existsFailure w f)
            && negb (doesIntersect f (disabledIntervals w))); auto.
Qed.

Lemma addFailure_ignoreNodes (f : RuleFailure) (w : Walker) :
  ignoreNodes (addFailure f w) = ignoreNodes w.
Proof. destruct (addFailure_cases f w) as [-> | ->]; reflexivity. Qed.

Lemma addFailure_currentClassName (f : RuleFailure) (w : Walker) :
  currentClassName (addFailure f w) = currentClassName w.
Proof. destruct (addFailure_cases f w) as [-> | ->]; reflexivity. Qed.

Lemma fold_left_push (args : list Node) (l : list nat) :
  fold_left push args l = (l ++ map nid args)%list.
Proof.
  revert l; induction args as [| a args IH]; intros l; simpl.
  - now rewrite app_nil_r.
  - rewrite IH; unfold push; now rewrite <- app_assoc.
Qed.

Lemma contains_In (l : list nat) (node : Node) :
  contains l node = true <-> In (nid node) l.
Proof.
  unfold contains; rewrite existsb_exists; split.
  - intros [x [Hx Heq]]; apply Nat.eqb_eq in Heq; now subst.
  - intros H; exists (nid node); split; [assumption | apply Nat.eqb_refl].
Qed.

Lemma removeAll_In (source : list nat) (elements : list Node) (i : nat) :
  In i (removeAll source elements)
  <-> In i source /\ ~ In i (map nid elements).
Proof.
  unfold removeAll; rewrite filter_In, negb_true_iff.
  split; intros [Hs Hn]; split; try assumption.
  - intros Hin; apply in_map_iff in Hin as [e [He Hin]].
    assert (Hex : existsb (fun e => Nat.eqb i (nid e)) elements = true).
    { apply existsb_exists; exists e; split; [assumption |].
      subst; apply Nat.eqb_refl. }
    congruence.
  - destruct (existsb (fun e => Nat.eqb i (nid e)) elements) eqn:Hex;
      [| reflexivity].
    apply existsb_exists in Hex as [e [He Heq]]; apply Nat.eqb_eq in Heq.
    exfalso; apply Hn; apply in_map_iff; eauto.
Qed.

Lemma visitNode_unfold (node : Node) (w : Walker) :
  visitNode node w =
  match kind node with
  | CallExpression => visitCallExpression (walkChildren visitNode) node w
  | ArrowFunction => visitArrowFunction (walkChildren visitNode) node w
  | MethodDeclaration => visitMethodDeclaration (walkChildren visitNode) node w
  | FunctionDeclaration =>
      visitFunctionDeclaration (walkChildren visitNode) node w
  | Constructor => visitConstructorDeclaration (walkChildren visitNode) node w
  | ClassDeclaration => visitClassDeclaration (walkChildren visitNode) node w
  | _ => walkChildren visitNode node w
  end.
Proof. destruct node; reflexivity. Qed.

(** Every visit is its entering part, the walk of the children, and its
    leaving part. *)
Lemma visitNode_phases (node : Node) (w : Walker) :
  visitNode node w =
  (p <- enter node w ;;
   w2 <- forEachChild visitNode (children node) (fst p) ;;
   ret (leave (snd p) node w2)).
Proof.
  rewrite visitNode_unfold; unfold enter, walkChildren.
  destruct (kind node);
    unfold visitCallExpression, visitArrowFunction, visitMethodDeclaration,
      visitFunctionDeclaration, visitConstructorDeclaration,
      visitClassDeclaration, walkChildren;
    simpl;
    try (destruct (forEachChild visitNode (children node) w); reflexivity);
    try (destruct (validate node w) as [e | w1]; simpl; [reflexivity |];
         destruct (forEachChild visitNode (children node) w1); reflexivity).
  - destruct (nameText node) as [e | cn]; simpl; reflexivity.
  - destruct (getFunctionName node) as [e | fn]; simpl; [reflexivity |].
    destruct (match ignoreParametersToFunctionRegex w with
              | Some regex => RegExp_test regex (showString fn)
              | None => false
              end); simpl; [reflexivity |].
    destruct (forEachChild visitNode (children node) w); reflexivity.
Qed.

(** ** Thresholds *)

Lemma getMaxLength_supported (w : Walker) (k : SyntaxKind) :
  supported k = true -> getMaxLength w k = inr (resolvedThreshold w k).
Proof.
  intros Hk; unfold getMaxLength, resolvedThreshold, js_or, truthy.
  destruct k; try discriminate; simpl;
    match goal with
    | |- context [?f w] => destruct (f w) as [t |]; [| reflexivity]
    end;
    destruct (t =? 0); reflexivity.
Qed.

(** C8: a kind other than the four supported ones makes both the kind-label
    lookup and the threshold lookup throw the internal error for that kind;
    neither returns a value. *)
Theorem unsupported_kind_is_fatal (w : Walker) (k : SyntaxKind) :
  supported k = false ->
  getFuncTypeText k = inl (UnsupportedNodeKind k)
  /\ getMaxLength w k = inl (UnsupportedNodeKind k).
Proof.
  intros Hk; destruct k; try discriminate; split; reflexivity.
Qed.

(** C3: a node of a supported kind is too long exactly when its length is
    strictly greater than the resolved threshold (the per-kind maximum when
    set and not zero, otherwise the fallback); with no threshold at all it is
    never too long. *)
Theorem too_long_iff_exceeds_threshold (w : Walker) (k : SyntaxKind)
  (length : Z) :
  supported k = true ->
  getMaxLength w k = inr (resolvedThreshold w k)
  /\ exists flagged,
       isFunctionTooLong w k length = inr flagged
       /\ (flagged = true <->
           exists t, resolvedThreshold w k = Some t /\ t < length)
       /\ (resolvedThreshold w k = None -> flagged = false).
Proof.
  intros Hk; pose proof (getMaxLength_supported w k Hk) as Hmax.
  split; [assumption |].
  unfold isFunctionTooLong; rewrite Hmax; simpl.
  exists (js_gt length (resolvedThreshold w k)); split; [reflexivity |].
  destruct (resolvedThreshold w k) as [t |]; simpl; split.
  - split.
    + intros H; exists t; split; [reflexivity |].
      apply Z.gtb_lt in H; assumption.
    + intros [t' [Heq Hlt]]; injection Heq as <-.
      apply Z.gtb_lt; assumption.
  - discriminate.
  - split; [discriminate |]. intros [t [Heq _]]; discriminate.
  - reflexivity.
Qed.

(** ** Body length *)

Lemma same_line_count (starts : list Z) (p e : Z) :
  p <= e ->
  (forall s, In s starts -> s <= p \/ e < s) ->
  filter (fun s => s <=? e) starts = filter (fun s => s <=? p) starts.
Proof.
  intros Hpe Hs; apply filter_ext_in; intros s Hin.
  destruct (Hs s Hin) as [H | H].
  - transitivity true; [| symmetry]; apply Z.leb_le; lia.
  - transitivity false; [| symmetry]; apply Z.leb_gt; lia.
Qed.

Lemma line_count_split (starts : list Z) (lo hi : Z) :
  lo <= hi ->
  List.length (filter (fun s => s <=? hi) starts)
  = Nat.add (List.length (filter (fun s => s <=? lo) starts))
      (List.length (filter (fun s => (lo <? s) && (s <=? hi)) starts)).
Proof.
  intros Hle; induction starts as [| s starts IH]; simpl; [reflexivity |].
  destruct (s <=? hi) eqn:Hhi, (s <=? lo) eqn:Hlo, (lo <? s) eqn:Hlt;
    simpl; try (rewrite IH; lia);
    exfalso;
    rewrite ?Z.leb_le, ?Z.leb_gt, ?Z.ltb_lt, ?Z.ltb_ge in *; lia.
Qed.

(** C4, amended: with a body, the length is the line of the body's end minus
    the line of the body's raw start [pos], which lies before the leading
    trivia of the body.  It is the number of lines that start within the
    leading trivia plus the number that start within the text of the body, so
    it is 0 when no line starts after [pos] and at or before the end. *)
Theorem body_length_counts_from_raw_start (w : Walker) (node b : Node) :
  body node = Some b ->
  pos b <= getStart b ->
  getStart b <= end_ b ->
  calcBodyLength w node =
    line (getLineAndCharacterOfPosition (getSourceFile w) (end_ b))
    - line (getLineAndCharacterOfPosition (getSourceFile w) (pos b))
  /\ calcBodyLength w node =
       lineStartsWithin (getSourceFile w) (pos b) (getStart b)
       + lineStartsWithin (getSourceFile w) (getStart b) (end_ b)
  /\ ((forall s, In s (lineStarts (getSourceFile w)) ->
                 s <= pos b \/ end_ b < s) ->
      calcBodyLength w node = 0).
Proof.
  intros Hb Hps Hse; unfold calcBodyLength; rewrite Hb.
  unfold getLineAndCharacterOfPosition, lineStartsWithin; simpl.
  split; [reflexivity |]; split.
  - rewrite (line_count_split (lineStarts (getSourceFile w))
               (getStart b) (end_ b) Hse).
    rewrite (line_count_split (lineStarts (getSourceFile w))
               (pos b) (getStart b) Hps).
    rewrite !Nat2Z.inj_add; lia.
  - intros Hs; rewrite (same_line_count _ _ _ (Z.le_trans _ _ _ Hps Hse) Hs).
    lia.
Qed.

Lemma validate_not_too_long (w : Walker) (node : Node) :
  isFunctionTooLong w (kind node) (calcBodyLength w node) = inr false ->
  validate node w = inr w.
Proof.
  intros H; unfold validate.
  destruct (negb (contains (ignoreNodes w) node)); [| reflexivity].
  rewrite H; reflexivity.
Qed.

(** C5, amended: a node of a supported kind without a body has length 0, and
    it records no violation whenever the resolved threshold of its kind is
    unset or not negative. *)
Theorem bodiless_node_not_flagged (w : Walker) (node : Node) :
  supported (kind node) = true ->
  body node = None ->
  (forall t, resolvedThreshold w (kind node) = Some t -> 0 <= t) ->
  calcBodyLength w node = 0 /\ validate node w = inr w.
Proof.
  intros Hk Hb Ht.
  assert (Hlen : calcBodyLength w node = 0)
    by (unfold calcBodyLength; rewrite Hb; reflexivity).
  split; [assumption |].
  apply validate_not_too_long; rewrite Hlen.
  unfold isFunctionTooLong; rewrite (getMaxLength_supported w _ Hk); simpl.
  destruct (resolvedThreshold w (kind node)) as [t |] eqn:Hr; simpl;
    [| reflexivity].
  specialize (Ht t eq_refl).
  unfold ret; f_equal; rewrite Z.gtb_ltb; apply Z.ltb_ge; assumption.
Qed.

(** ** Messages *)

Lemma getFuncTypeText_label (k : SyntaxKind) (label : string) :
  getFuncTypeText k = inr label -> supported k = true /\ label = kindLabel k.
Proof.
  destruct k; simpl; intros H; try discriminate;
    injection H as <-; split; reflexivity.
Qed.

Lemma formatPlaceText_clause (w : Walker) (node : Node) (place : string) :
  formatPlaceText w node = inr place -> place = placeClause w node.
Proof.
  unfold formatPlaceText, placeClause, nameText; intros H.
  apply bind_inr in H as [label [Hl H]].
  apply getFuncTypeText_label in Hl as [Hk ->].
  destruct (kind node); try discriminate; simpl in *;
    try (destruct (name node); simpl in H; [| discriminate]);
    injection H as <-; reflexivity.
Qed.

Lemma formatFailureText_shape (w : Walker) (node : Node) (length : Z)
  (message : string) :
  formatFailureText w node length = inr message ->
  exists threshold,
    getMaxLength w (kind node) = inr threshold
    /\ message = messageShape (kindLabel (kind node)) (placeClause w node)
                   threshold length.
Proof.
  intros H; unfold formatFailureText in H.
  apply bind_inr in H as [label [Hl H]].
  apply bind_inr in H as [threshold [Ht H]].
  apply bind_inr in H as [place [Hp H]].
  apply getFuncTypeText_label in Hl as [Hk ->].
  apply formatPlaceText_clause in Hp as ->.
  injection H as <-.
  exists threshold; split; [assumption | reflexivity].
Qed.

(** C6: every message that [formatFailureText] builds is
    [Max <label> body length exceeded<place> - max: <threshold>, actual: <length>],
    the place clause being [ in <label> <name>()] for functions and methods,
    [ in class <currentClassName>] for constructors and empty for arrow
    functions; a method [foo] with threshold 3 and length 5 gives exactly
    [Max method body length exceeded in method foo() - max: 3, actual: 5]. *)
Theorem message_has_fixed_shape :
  (forall (w : Walker) (node : Node) (length : Z) (message : string),
      formatFailureText w node length = inr message ->
      exists threshold,
        getMaxLength w (kind node) = inr threshold
        /\ message = messageShape (kindLabel (kind node)) (placeClause w node)
                       threshold length
        /\ (kind node = ArrowFunction -> placeClause w node = ""))
  /\ (forall (w : Walker) (node nameNode : Node),
         kind node = MethodDeclaration ->
         name node = Some nameNode ->
         text nameNode = Some "foo" ->
         resolvedThreshold w MethodDeclaration = Some 3 ->
         formatFailureText w node 5 =
           inr "Max method body length exceeded in method foo() - max: 3, actual: 5").
Proof.
  split.
  - intros w node length message H.
    apply formatFailureText_shape in H as [threshold [Ht Hm]].
    exists threshold; repeat split; try assumption.
    intros Ha; unfold placeClause; rewrite Ha; reflexivity.
  - intros w node nameNode Hk Hn Ht Hr.
    unfold formatFailureText, formatPlaceText, nameText.
    rewrite Hk, (getMaxLength_supported w MethodDeclaration eq_refl), Hr, Hn, Ht.
    reflexivity.
Qed.

(** ** Configuration *)

Lemma parseOptions_throws (opts : list OptionEntry) (o : OptionsObject)
  (regex : string) :
  In (OptObject o) opts ->
  ignore_parameters_to_function_regex o = Some regex ->
  regex <> "" ->
  RegExp_new regex = None ->
  forall w, exists e,
    forEach parseOption opts w = inl e
    /\ (~ In OptNull opts -> exists r, e = SyntaxError r /\ RegExp_new r = None).
Proof.
  intros Hin Hre Hne Hnew.
  induction opts as [| opt opts IH]; [contradiction |].
  intros w; simpl.
  destruct Hin as [-> | Hin].
  - exists (SyntaxError regex); split; [| eauto].
    apply bind_inl; simpl; rewrite Hre.
    apply String.eqb_neq in Hne; rewrite Hne, Hnew; reflexivity.
  - destruct (parseOption opt w) as [e | w'] eqn:Hopt; simpl.
    + exists e; split; [reflexivity |].
      intros Hnull; destruct opt as [n | o' | |]; simpl in Hopt;
        try discriminate.
      * destruct (ignore_parameters_to_function_regex o') as [r |];
          [| discriminate].
        destruct (String.eqb r ""); [discriminate |].
        destruct (RegExp_new r) eqn:Hr; [discriminate |].
        injection Hopt as <-; eauto.
      * exfalso; apply Hnull; now left.
    + destruct (IH Hin w') as [e [He Hsyn]].
      exists e; split; [assumption |].
      intros Hnull; apply Hsyn; intros H; apply Hnull; now right.
Qed.

(** C7: when an option object carries a non-empty pattern that does not
    compile, building the walker throws, so [apply] throws the same exception
    with no node visited, whatever the file; unless a [null] entry of the
    options threw first, it is the [SyntaxError] of a pattern that does not
    compile. *)
Theorem malformed_pattern_aborts_construction (sf : TsSourceFile)
  (opts : IOptions) (o : OptionsObject) (regex : string) :
  In (OptObject o) (ruleArguments opts) ->
  ignore_parameters_to_function_regex o = Some regex ->
  regex <> "" ->
  RegExp_new regex = None ->
  exists e,
    newWalker sf opts = inl e
    /\ apply sf opts = inl e
    /\ (~ In OptNull (ruleArguments opts) ->
        exists r, e = SyntaxError r /\ RegExp_new r = None).
Proof.
  intros Hin Hre Hne Hnew.
  destruct (parseOptions_throws (ruleArguments opts) o regex Hin Hre Hne Hnew
              (MkWalker sf (ruleArguments opts) [] (ruleDisabledIntervals opts)
                 None None None None None None None []))
    as [e [He Hsyn]].
  exists e; unfold apply, newWalker, parseOptions, getOptions; simpl.
  rewrite He; auto.
Qed.

(** ** Exceptions during the walk *)

Lemma forEachChild_throws (c : Node) (cs : list (Role * Node)) :
  Forall (fun ch => In c (descendants (snd ch)) ->
                    forall w, exists e, visitNode (snd ch) w = inl e) cs ->
  In c (flat_map (fun ch => descendants (snd ch)) cs) ->
  forall w, exists e, forEachChild visitNode cs w = inl e.
Proof.
  induction 1 as [| ch cs Hch _ IH]; simpl; [contradiction |].
  intros Hin w; apply in_app_or in Hin.
  destruct (visitNode (snd ch) w) as [e | w'] eqn:Hv; simpl; [eauto |].
  destruct Hin as [Hin | Hin].
  - destruct (Hch Hin w) as [e He]; congruence.
  - apply IH; assumption.
Qed.

Lemma unnamed_class_enter (c : Node) (w : Walker) :
  kind c = ClassDeclaration -> name c = None -> visitNode c w = inl TypeError.
Proof.
  intros Hk Hn; rewrite visitNode_phases; unfold enter, nameText.
  rewrite Hk, Hn; reflexivity.
Qed.

Lemma unnamed_class_propagates (c : Node) :
  kind c = ClassDeclaration -> name c = None ->
  forall node, In c (descendants node) ->
               forall w, exists e, visitNode node w = inl e.
Proof.
  intros Hk Hn node; induction node as [node IH] using Node_induction.
  intros Hin w; destruct node as [i k p e s t cs]; simpl in Hin.
  destruct Hin as [<- | Hin].
  - exists TypeError; apply unnamed_class_enter; assumption.
  - rewrite visitNode_phases.
    destruct (enter _ w) as [ex | [w1 l]]; simpl; [eauto |].
    destruct (forEachChild_throws c cs IH Hin w1) as [ex Hex].
    simpl in *; rewrite Hex; simpl; eauto.
Qed.

(** C10: visiting a class declaration that has no name throws a [TypeError],
    whatever the state of the walker, and so the analysis of a file that
    contains such a class throws, whatever the options. *)
Theorem unnamed_class_throws (sf : TsSourceFile) (opts : IOptions)
  (c : Node) :
  In c (descendants (root sf)) ->
  kind c = ClassDeclaration ->
  name c = None ->
  (forall w, visitNode c w = inl TypeError)
  /\ exists e, apply sf opts = inl e.
Proof.
  intros Hin Hk Hn; split.
  - intros w; apply unnamed_class_enter; assumption.
  - unfold apply, walk.
    destruct (newWalker sf opts) as [e | w]; simpl; [eauto |].
    destruct (unnamed_class_propagates c Hk Hn (root sf) Hin w) as [e He].
    rewrite He; simpl; eauto.
Qed.

(** ** What a visit does to the failures and to the suppression list *)

Lemma validate_effect (node : Node) (w w1 : Walker) :
  validate node w = inr w1 ->
  ignoreNodes w1 = ignoreNodes w
  /\ (failures w1 = failures w
      \/ (~ In (nid node) (ignoreNodes w)
          /\ exists f, failures w1 = (failures w ++ [f])%list
                       /\ failureNode f = nid node
                       /\ exceedsPrintedMax f)).
Proof.
  unfold validate; intros H.
  destruct (contains (ignoreNodes w) node) eqn:Hc; simpl in H;
    [injection H as <-; auto |].
  apply bind_inr in H as [flagged [Hflag H]].
  destruct flagged; [| injection H as <-; auto].
  unfold isFunctionTooLong in Hflag.
  apply bind_inr in Hflag as [max [Hmax Hgt]]; injection Hgt as Hgt.
  unfold addFuncBodyTooLongFailure in H.
  apply bind_inr in H as [message [Hmsg H]]; injection H as <-.
  match goal with
  | |- context [addFailure ?f w] =>
      destruct (addFailure_cases f w) as [-> | ->]; [auto |]
  end.
  split; [reflexivity | right]; split.
  - intros Hin; apply contains_In in Hin; congruence.
  - eexists; split; [reflexivity |]; split; [reflexivity |].
    apply formatFailureText_shape in Hmsg as [threshold [Ht ->]].
    assert (threshold = max) as -> by congruence.
    destruct max as [t |]; simpl in Hgt; [| discriminate].
    exists (kindLabel (kind node)), (placeClause w node), t,
      (calcBodyLength w node).
    split; [reflexivity | apply Z.gtb_lt; auto].
Qed.

Lemma enter_effect (node : Node) (w w1 : Walker) (l : Leave) :
  enter node w = inr (w1, l) ->
  (forall i, In i (ignoreNodes w) -> In i (ignoreNodes w1))
  /\ (l = LeaveCall ->
      forall a, In a (arguments node) -> In (nid a) (ignoreNodes w1))
  /\ (failures w1 = failures w
      \/ (~ In (nid node) (ignoreNodes w)
          /\ exists f, failures w1 = (failures w ++ [f])%list
                       /\ failureNode f = nid node
                       /\ exceedsPrintedMax f)).
Proof.
  unfold enter; intros H.
  destruct (kind node);
    try (injection H as <- <-; repeat split; auto; discriminate);
    try (apply bind_inr in H as [w2 [Hv H]]; injection H as <- <-;
         apply validate_effect in Hv as [Hi Hf]; rewrite Hi;
         repeat split; auto; discriminate).
  - apply bind_inr in H as [cn [_ H]]; injection H as <- <-.
    repeat split; auto; discriminate.
  - apply bind_inr in H as [fn [_ H]].
    destruct (match ignoreParametersToFunctionRegex w with
              | Some regex => RegExp_test regex (showString fn)
              | None => false
              end); injection H as <- <-; simpl.
    + rewrite fold_left_push; repeat split; auto.
      * intros i Hi; apply in_or_app; now left.
      * intros _ a Ha; apply in_or_app; right; now apply in_map.
    + repeat split; auto; discriminate.
Qed.

Lemma leave_effect (l : Leave) (node : Node) (w : Walker) :
  failures (leave l node w) = failures w
  /\ (forall i, In i (ignoreNodes w) -> ~ In i (map nid (arguments node)) ->
                In i (ignoreNodes (leave l node w)))
  /\ (l = LeaveCall ->
      forall a, In a (arguments node) ->
                contains (ignoreNodes (leave l node w)) a = false).
Proof.
  destruct l; simpl; repeat split; auto; try discriminate.
  - intros i Hi Hn; apply removeAll_In; auto.
  - intros _ a Ha.
    destruct (contains (removeAll (ignoreNodes w) (arguments node)) a) eqn:Hc;
      [| reflexivity].
    apply contains_In, removeAll_In in Hc as [_ Hn].
    exfalso; apply Hn; now apply in_map.
Qed.

Lemma arguments_childIds (node a : Node) :
  In a (arguments node) -> In (nid a) (childIds (children node)).
Proof.
  unfold arguments, childIds; intros H.
  apply in_map_iff in H as [c [<- Hc]]; apply filter_In in Hc as [Hc _].
  apply in_flat_map; exists c; split; [assumption |].
  destruct (snd c); simpl; now left.
Qed.

Lemma forEachChild_failures (cs : list (Role * Node)) :
  Forall (fun c => forall w w',
              Forall exceedsPrintedMax (failures w) ->
              visitNode (snd c) w = inr w' ->
              Forall exceedsPrintedMax (failures w')) cs ->
  forall w w',
    Forall exceedsPrintedMax (failures w) ->
    forEachChild visitNode cs w = inr w' ->
    Forall exceedsPrintedMax (failures w').
Proof.
  induction 1 as [| c cs Hc _ IH]; simpl; intros w w' Hw H.
  - injection H as <-; assumption.
  - apply bind_inr in H as [w1 [Hv H]]; eauto.
Qed.

Lemma visitNode_failures (node : Node) :
  forall w w',
    Forall exceedsPrintedMax (failures w) ->
    visitNode node w = inr w' ->
    Forall exceedsPrintedMax (failures w').
Proof.
  induction node as [node IH] using Node_induction; intros w w' Hw H.
  rewrite visitNode_phases in H.
  apply bind_inr in H as [[w1 l] [He H]]; simpl in H.
  apply bind_inr in H as [w2 [Hc H]]; injection H as <-.
  destruct (leave_effect l node w2) as [-> _].
  apply (forEachChild_failures _ IH w1 w2); [| assumption].
  apply enter_effect in He as [_ [_ [-> | [_ [f [-> [_ Hf]]]]]]];
    [assumption |].
  apply Forall_app; split; [assumption | now constructor].
Qed.

(** C9: in every failure that the analysis returns, the threshold printed
    after [max:] is a number and the length printed after [actual:] is
    strictly greater than it. *)
Theorem emitted_failures_exceed_printed_max (sf : TsSourceFile)
  (opts : IOptions) (fs : list RuleFailure) :
  apply sf opts = inr fs -> Forall exceedsPrintedMax fs.
Proof.
  unfold apply, walk, getFailures; intros H.
  apply bind_inr in H as [w [Hnew H]].
  apply bind_inr in H as [w' [Hwalk H]]; injection H as <-.
  apply (visitNode_failures (root sf) w w'); [| assumption].
  assert (Hinit : forall os w0 w1,
             forEach parseOption os w0 = inr w1 -> failures w1 = failures w0).
  { induction os as [| o os IH]; simpl; intros w0 w1 Hp.
    - injection Hp as <-; reflexivity.
    - apply bind_inr in Hp as [w2 [Ho Hp]]; rewrite (IH _ _ Hp).
      destruct o as [n | o | |]; simpl in Ho; try discriminate;
        try (injection Ho as <-; reflexivity).
      destruct (ignore_parameters_to_function_regex o) as [r |];
        [| injection Ho as <-; reflexivity].
      destruct (String.eqb r ""); [injection Ho as <-; reflexivity |].
      destruct (RegExp_new r); [injection Ho as <-; reflexivity | discriminate]. }
  unfold newWalker, parseOptions in Hnew; apply Hinit in Hnew.
  rewrite Hnew; constructor.
Qed.

Lemma NoDup_app_disjoint {A} (l1 l2 : list A) :
  NoDup (l1 ++ l2) -> forall a, In a l1 -> ~ In a l2.
Proof.
  induction l1 as [| x l1 IH]; simpl; intros Hnd a Hin; [contradiction |].
  inversion Hnd as [| ? ? Hx Hrest]; subst.
  destruct Hin as [-> | Hin].
  - intros H2; apply Hx; apply in_or_app; now right.
  - now apply IH.
Qed.

Lemma Scoped_refl (S : list nat) (w : Walker) : Scoped S w w.
Proof.
  split; [auto |]. exists []; split; [now rewrite app_nil_r | constructor].
Qed.

Lemma Scoped_seq (S1 S2 : list nat) (w w1 w2 : Walker) :
  (forall i, In i S1 -> ~ In i S2) ->
  Scoped S1 w w1 -> Scoped S2 w1 w2 -> Scoped (S1 ++ S2) w w2.
Proof.
  intros Hdis [Hk1 [new1 [Hf1 Hn1]]] [Hk2 [new2 [Hf2 Hn2]]]; split.
  - intros i Hi Hn; apply Hk2.
    + apply Hk1; [assumption |]. intros H; apply Hn, in_or_app; now left.
    + intros H; apply Hn, in_or_app; now right.
  - exists (new1 ++ new2)%list; split.
    + rewrite Hf2, Hf1; now rewrite app_assoc.
    + apply Forall_app; split.
      * eapply Forall_impl; [| exact Hn1]; simpl.
        intros f [Hin Hign]; split; [apply in_or_app; now left | assumption].
      * eapply Forall_impl; [| exact Hn2]; simpl.
        intros f [Hin Hign]; split; [apply in_or_app; now right |].
        intros Hw; apply Hign, Hk1; [assumption |].
        intros H1; exact (Hdis _ H1 Hin).
Qed.

Lemma forEachChild_scoped (cs : list (Role * Node)) :
  Forall (fun c => NoDup (ids (snd c)) ->
                   forall w w', visitNode (snd c) w = inr w' ->
                                Scoped (ids (snd c)) w w') cs ->
  NoDup (childIds cs) ->
  forall w w', forEachChild visitNode cs w = inr w' ->
               Scoped (childIds cs) w w'.
Proof.
  induction 1 as [| c cs Hc _ IH]; simpl; intros Hnd w w' H.
  - injection H as <-; apply Scoped_refl.
  - apply bind_inr in H as [w1 [Hv H]].
    apply Scoped_seq with (w1 := w1).
    + now apply NoDup_app_disjoint.
    + apply Hc; [eapply NoDup_app_remove_r; exact Hnd | assumption].
    + apply IH; [eapply NoDup_app_remove_l; exact Hnd | assumption].
Qed.

Lemma ids_unfold (node : Node) :
  ids node = nid node :: childIds (children node).
Proof. destruct node; reflexivity. Qed.

Lemma visitNode_scoped (node : Node) :
  NoDup (ids node) ->
  forall w w', visitNode node w = inr w' -> Scoped (ids node) w w'.
Proof.
  induction node as [node IH] using Node_induction; intros Hnd w w' H.
  rewrite ids_unfold in *; inversion Hnd as [| ? ? _ Hcs]; subst.
  rewrite visitNode_phases in H.
  apply bind_inr in H as [[w1 l] [He H]]; simpl in H.
  apply bind_inr in H as [w2 [Hc H]]; injection H as <-.
  apply (forEachChild_scoped _ IH Hcs) in Hc as [Hkeep [new [Hf Hnew]]].
  apply enter_effect in He as [Hsup [_ Hfail]].
  destruct (leave_effect l node w2) as [Hlf [Hlk _]].
  split.
  - intros i Hi Hn; apply Hlk.
    + apply Hkeep; [now apply Hsup |]. intros H; apply Hn; now right.
    + intros H; apply in_map_iff in H as [a [<- Ha]].
      apply Hn; right; now apply arguments_childIds.
  - assert (Hnew' : Forall (fun f =>
                       In (failureNode f) (nid node :: childIds (children node))
                       /\ ~ In (failureNode f) (ignoreNodes w)) new).
    { eapply Forall_impl; [| exact Hnew]; simpl.
      intros f [Hin Hign]; split; [now right | auto]. }
    rewrite Hlf, Hf.
    destruct Hfail as [-> | [Hself [f [-> [Hanchor _]]]]].
    + exists new; split; [reflexivity | assumption].
    + exists (f :: new); split; [now rewrite <- app_assoc |].
      constructor; [| assumption].
      rewrite Hanchor; split; [now left | assumption].
Qed.

(** C1, amended: while a call whose callee name matches the pattern is
    visited, no failure is recorded for a node that is itself one of the
    call's arguments, and once the call has been visited none of its
    arguments is in the suppression list any more. *)
Theorem suppression_covers_arguments_only (call : Node) (w w' : Walker) :
  kind call = CallExpression ->
  suppresses w call ->
  NoDup (ids call) ->
  visitNode call w = inr w' ->
  exists new,
    failures w' = (failures w ++ new)%list
    /\ forall a, In a (arguments call) ->
                 Forall (fun f => failureNode f <> nid a) new
                 /\ contains (ignoreNodes w') a = false.
Proof.
  intros Hk [regex [fn [Hre [Hfn Htest]]]] Hnd H.
  rewrite ids_unfold in Hnd; inversion Hnd as [| ? ? _ Hcs]; subst.
  rewrite visitNode_phases in H.
  apply bind_inr in H as [[w1 l] [He H]]; simpl in H.
  apply bind_inr in H as [w2 [Hc H]]; injection H as <-.
  assert (Hl : l = LeaveCall /\ failures w1 = failures w).
  { unfold enter in He; rewrite Hk, Hfn, Hre in He; simpl in He.
    rewrite Htest in He; injection He as <- <-; split; reflexivity. }
  destruct Hl as [-> Hf1].
  apply enter_effect in He as [_ [Hargs _]].
  destruct (leave_effect LeaveCall call w2) as [Hlf [_ Hgone]].
  assert (Hall : Forall (fun c => NoDup (ids (snd c)) ->
                     forall w w', visitNode (snd c) w = inr w' ->
                                  Scoped (ids (snd c)) w w') (children call))
    by (apply Forall_forall; intros c _; apply visitNode_scoped).
  apply (forEachChild_scoped _ Hall Hcs) in Hc as [_ [new [Hf Hnew]]].
  exists new; split; [now rewrite Hlf, Hf, Hf1 |].
  intros a Ha; split; [| now apply Hgone].
  eapply Forall_impl; [| exact Hnew]; simpl.
  intros f [_ Hign] Heq; apply Hign; rewrite Heq; now apply Hargs.
Qed.

(** ** The walker that [parseOptions] builds *)

Lemma parseOption_fields (opt : OptionEntry) (w w' : Walker) :
  parseOption opt w = inr w' ->
  sourceFile w' = sourceFile w /\ options w' = options w
  /\ failures w' = failures w /\ ignoreNodes w' = ignoreNodes w
  /\ currentClassName w' = currentClassName w
  /\ maxBodyLength w' =
       match opt with OptNumber n => Some n | _ => maxBodyLength w end
  /\ (maxFuncBodyLength w', maxArrowBodyLength w',
      maxMethodBodyLength w', maxCtorBodyLength w') =
       match opt with
       | OptObject o => (func_body_length o, arrow_body_length o,
                         method_body_length o, ctor_body_length o)
       | _ => (maxFuncBodyLength w, maxArrowBodyLength w,
               maxMethodBodyLength w, maxCtorBodyLength w)
       end
  /\ ignoreParametersToFunctionRegex w' =
       match patternOf opt with
       | Some regex => RegExp_new regex
       | None => ignoreParametersToFunctionRegex w
       end.
Proof.
  destruct opt as [n | o | |]; simpl; intros H; try discriminate;
    try (injection H as <-; repeat split; reflexivity).
  destruct (ignore_parameters_to_function_regex o) as [regex |];
    [| injection H as <-; repeat split; reflexivity].
  destruct (String.eqb regex "");
    [injection H as <-; repeat split; reflexivity |].
  destruct (RegExp_new regex) as [r |] eqn:Hr; [| discriminate].
  injection H as <-; repeat split; reflexivity.
Qed.

Lemma forEach_parseOption_fields (opts : list OptionEntry) :
  forall w w',
    forEach parseOption opts w = inr w' ->
    sourceFile w' = sourceFile w /\ options w' = options w
    /\ failures w' = failures w /\ ignoreNodes w' = ignoreNodes w
    /\ currentClassName w' = currentClassName w
    /\ maxBodyLength w' =
         match lastNumber opts with Some n => Some n | None => maxBodyLength w end
    /\ (maxFuncBodyLength w', maxArrowBodyLength w',
        maxMethodBodyLength w', maxCtorBodyLength w') =
         match lastObject opts with
         | Some o => (func_body_length o, arrow_body_length o,
                      method_body_length o, ctor_body_length o)
         | None => (maxFuncBodyLength w, maxArrowBodyLength w,
                    maxMethodBodyLength w, maxCtorBodyLength w)
         end
    /\ ignoreParametersToFunctionRegex w' =
         match lastPattern opts with
         | Some regex => RegExp_new regex
         | None => ignoreParametersToFunctionRegex w
         end.
Proof.
  induction opts as [| opt opts IH]; simpl; intros w w' H.
  - injection H as <-; repeat split; reflexivity.
  - apply bind_inr in H as [w1 [Hopt H]].
    apply parseOption_fields in Hopt
      as [Hs [Ho [Hf [Hi [Hc [Hn [Hk Hr]]]]]]].
    apply IH in H as [Hs' [Ho' [Hf' [Hi' [Hc' [Hn' [Hk' Hr']]]]]]].
    rewrite Hs', Ho', Hf', Hi', Hc', Hn', Hk', Hr'.
    repeat split; try assumption.
    + destruct (lastNumber opts); [reflexivity |].
      rewrite Hn; destruct opt; reflexivity.
    + destruct (lastObject opts); [reflexivity |].
      rewrite Hk; destruct opt; reflexivity.
    + destruct (lastPattern opts); [reflexivity | assumption].
Qed.

Lemma forEach_parseOption_disabledIntervals (opts : list OptionEntry) :
  forall w w',
    forEach parseOption opts w = inr w' ->
    disabledIntervals w' = disabledIntervals w.
Proof.
  induction opts as [| opt opts IH]; simpl; intros w w' H.
  - injection H as <-; reflexivity.
  - apply bind_inr in H as [w1 [Hopt H]]; rewrite (IH _ _ H).
    destruct opt as [n | o | |]; simpl in Hopt; try discriminate;
      try (injection Hopt as <-; reflexivity).
    destruct (ignore_parameters_to_function_regex o) as [r |];
      [| injection Hopt as <-; reflexivity].
    destruct (String.eqb r ""); [injection Hopt as <-; reflexivity |].
    destruct (RegExp_new r); [injection Hopt as <-; reflexivity | discriminate].
Qed.

(** The thresholds of the walker that the constructor builds: the fallback is
    the last number among the options, and the four per-kind maxima are those
    of the last object among them, unset where that object lacks the key,
    whatever earlier objects said.  The walker starts with no failure, no
    suppressed node and no class name, and with the disabled intervals of the
    options. *)
Theorem constructed_thresholds_last_entry_wins (sf : TsSourceFile)
  (opts : IOptions) (w : Walker) :
  newWalker sf opts = inr w ->
  maxBodyLength w = lastNumber (ruleArguments opts)
  /\ maxFuncBodyLength w =
       match lastObject (ruleArguments opts) with
       | Some o => func_body_length o
       | None => None
       end
  /\ maxArrowBodyLength w =
       match lastObject (ruleArguments opts) with
       | Some o => arrow_body_length o
       | None => None
       end
  /\ maxMethodBodyLength w =
       match lastObject (ruleArguments opts) with
       | Some o => method_body_length o
       | None => None
       end
  /\ maxCtorBodyLength w =
       match lastObject (ruleArguments opts) with
       | Some o => ctor_body_length o
       | None => None
       end
  /\ sourceFile w = sf /\ options w = ruleArguments opts
  /\ failures w = [] /\ ignoreNodes w = [] /\ currentClassName w = None
  /\ disabledIntervals w = ruleDisabledIntervals opts.
Proof.
  unfold newWalker, parseOptions, getOptions; simpl; intros H.
  pose proof (forEach_parseOption_disabledIntervals _ _ _ H) as Hd.
  apply forEach_parseOption_fields in H
    as [Hs [Ho [Hf [Hi [Hc [Hn [Hk _]]]]]]]; simpl in *.
  repeat split; try assumption.
  - rewrite Hn; destruct (lastNumber (ruleArguments opts)); reflexivity.
  - destruct (lastObject (ruleArguments opts)); congruence.
  - destruct (lastObject (ruleArguments opts)); congruence.
  - destruct (lastObject (ruleArguments opts)); congruence.
  - destruct (lastObject (ruleArguments opts)); congruence.
Qed.

(** The pattern of the walker that the constructor builds is the compiled
    last non-empty pattern among the option objects: an object without a
    pattern, or with the empty one, leaves an earlier pattern in force. *)
Theorem constructed_pattern_is_last_nonempty (sf : TsSourceFile)
  (opts : IOptions) (w : Walker) :
  newWalker sf opts = inr w ->
  match lastPattern (ruleArguments opts) with
  | Some regex =>
      exists r, RegExp_new regex = Some r
                /\ ignoreParametersToFunctionRegex w = Some r
  | None => ignoreParametersToFunctionRegex w = None
  end.
Proof.
  unfold newWalker, parseOptions, getOptions; simpl; intros H.
  assert (Hall : forall os w0 w1 regex,
             forEach parseOption os w0 = inr w1 ->
             lastPattern os = Some regex -> RegExp_new regex <> None).
  { induction os as [| opt os IH]; simpl; intros w0 w1 regex Hp Hl;
      [discriminate |].
    apply bind_inr in Hp as [w2 [Hopt Hp]].
    destruct (lastPattern os) as [s |] eqn:Hs.
    - injection Hl as ->; eapply IH; eauto.
    - destruct opt as [n | o | |]; simpl in Hl; try discriminate.
      simpl in Hopt.
      destruct (ignore_parameters_to_function_regex o) as [s |];
        [| discriminate].
      destruct (String.eqb s ""); [discriminate |].
      injection Hl as ->.
      destruct (RegExp_new regex); [discriminate | discriminate]. }
  pose proof (fun regex => Hall _ _ _ regex H) as Hcompiles.
  apply forEach_parseOption_fields in H as [_ [_ [_ [_ [_ [_ [_ Hr]]]]]]].
  simpl in Hr.
  destruct (lastPattern (ruleArguments opts)) as [regex |]; [| assumption].
  specialize (Hcompiles regex eq_refl).
  destruct (RegExp_new regex) as [r |]; [eauto | contradiction].
Qed.

Lemma parseOption_succeeds_iff (opt : OptionEntry) (w : Walker) :
  (exists w', parseOption opt w = inr w') <-> entryParses opt.
Proof.
  unfold entryParses; split.
  - intros [w' H]; destruct opt as [n | o | |]; simpl in *;
      try discriminate; (split; [discriminate |]); intros regex Hp;
      try discriminate.
    destruct (ignore_parameters_to_function_regex o) as [s |];
      [| discriminate].
    destruct (String.eqb s ""); [discriminate |].
    injection Hp as ->.
    destruct (RegExp_new regex); [discriminate | discriminate].
  - intros [Hnull Hp]; destruct opt as [n | o | |]; simpl in *;
      try (eexists; reflexivity); [| contradiction].
    destruct (ignore_parameters_to_function_regex o) as [s |];
      [| eexists; reflexivity].
    destruct (String.eqb s ""); [eexists; reflexivity |].
    specialize (Hp s eq_refl).
    destruct (RegExp_new s); [eexists; reflexivity | contradiction].
Qed.

(** Building the walker succeeds exactly when no option entry is [null] and
    every non-empty pattern among the entries compiles. *)
Theorem construction_succeeds_iff (sf : TsSourceFile)
  (opts : IOptions) :
  (exists w, newWalker sf opts = inr w)
  <-> Forall entryParses (ruleArguments opts).
Proof.
  unfold newWalker, parseOptions, getOptions; simpl.
  generalize (MkWalker sf (ruleArguments opts) [] (ruleDisabledIntervals opts)
                None None None None None None None []).
  generalize (ruleArguments opts) as args.
  induction args as [| opt args IH]; intros w; simpl.
  - split; [constructor | eexists; reflexivity].
  - split.
    + intros [w' H]; apply bind_inr in H as [w1 [Hopt H]].
      constructor.
      * apply (parseOption_succeeds_iff opt w); eauto.
      * apply (IH w1); eauto.
    + intros H; inversion H as [| ? ? Hopt Hrest]; subst.
      apply (parseOption_succeeds_iff opt w) in Hopt as [w1 Hopt].
      rewrite Hopt; simpl; apply IH; assumption.
Qed.

(** ** The steps of a visit, case by case *)

Lemma getMaxLength_inr_supported (w : Walker) (k : SyntaxKind) (max : JsNumber) :
  getMaxLength w k = inr max ->
  supported k = true /\ max = resolvedThreshold w k.
Proof.
  intros H; assert (Hk : supported k = true)
    by (destruct k; simpl in *; first [reflexivity | discriminate]).
  split; [assumption |].
  rewrite (getMaxLength_supported w k Hk) in H; now injection H.
Qed.

Lemma validate_cases (node : Node) (w w1 : Walker) :
  validate node w = inr w1 ->
  w1 = w
  \/ exists f, w1 = addFailure f w
               /\ contains (ignoreNodes w) node = false
               /\ reportOf w node f.
Proof.
  unfold validate; intros H.
  destruct (contains (ignoreNodes w) node) eqn:Hc; simpl in H;
    [injection H as <-; auto |].
  apply bind_inr in H as [flagged [Hflag H]].
  destruct flagged; [| injection H as <-; auto].
  unfold isFunctionTooLong in Hflag.
  apply bind_inr in Hflag as [max [Hmax Hgt]]; injection Hgt as Hgt.
  unfold addFuncBodyTooLongFailure in H.
  apply bind_inr in H as [message [Hmsg H]]; injection H as <-.
  right; eexists; split; [reflexivity |]; split; [reflexivity |].
  apply formatFailureText_shape in Hmsg as [threshold [Ht ->]].
  assert (threshold = max) as -> by congruence.
  apply getMaxLength_inr_supported in Hmax as [Hk ->].
  destruct (resolvedThreshold w (kind node)) as [t |] eqn:Hr; simpl in Hgt;
    [| discriminate].
  repeat split; try assumption.
  exists t, (placeClause w node); rewrite Hr.
  repeat split; [apply Z.gtb_lt; assumption].
Qed.

Lemma enter_cases (node : Node) (w w1 : Walker) (l : Leave) :
  enter node w = inr (w1, l) ->
  (l = LeaveNothing /\ w1 = w)
  \/ (l = LeaveNothing
      /\ exists f, w1 = addFailure f w
                   /\ contains (ignoreNodes w) node = false
                   /\ reportOf w node f)
  \/ (l = LeaveCall
      /\ kind node = CallExpression
      /\ suppresses w node
      /\ w1 = set_ignoreNodes
                (ignoreNodes w ++ map nid (arguments node))%list w)
  \/ (l = LeaveClass
      /\ kind node = ClassDeclaration
      /\ exists nameNode,
           name node = Some nameNode
           /\ w1 = set_currentClassName (text nameNode) w).
Proof.
  unfold enter; intros H.
  destruct (kind node) eqn:Hk;
    try (injection H as <- <-; left; split; reflexivity);
    try (apply bind_inr in H as [w2 [Hv H]]; injection H as <- <-;
         apply validate_cases in Hv as [-> | Hf];
         [left; split; reflexivity | right; left; split; auto]).
  - unfold nameText in H; destruct (name node) as [nm |]; simpl in H;
      [| discriminate].
    injection H as <- <-; right; right; right; repeat split; eauto.
  - apply bind_inr in H as [fn [Hfn H]].
    destruct (ignoreParametersToFunctionRegex w) as [regex |] eqn:Hre.
    + destruct (RegExp_test regex (showString fn)) eqn:Ht;
        injection H as <- <-; [| left; split; reflexivity].
      right; right; left; rewrite fold_left_push; repeat split.
      exists regex, fn; auto.
    + injection H as <- <-; left; split; reflexivity.
Qed.

(** ** The configuration and the failures during the walk *)

Lemma sameConfiguration_refl (w : Walker) : sameConfiguration w w.
Proof. unfold sameConfiguration; repeat split. Qed.

Lemma sameConfiguration_trans (a b c : Walker) :
  sameConfiguration a b -> sameConfiguration b c -> sameConfiguration a c.
Proof.
  unfold sameConfiguration; intros H1 H2.
  destruct H1 as [? [? [? [? [? [? [? [? ?]]]]]]]].
  destruct H2 as [? [? [? [? [? [? [? [? ?]]]]]]]].
  repeat split; congruence.
Qed.

(** A relation between walkers that holds across a visit as soon as it holds
    across the entering and the leaving part of every visit. *)
Lemma visitNode_preserves (R : Walker -> Walker -> Prop) :
  (forall w, R w w) ->
  (forall a b c, R a b -> R b c -> R a c) ->
  (forall node w w1 l, enter node w = inr (w1, l) -> R w w1) ->
  (forall l node w, R w (leave l node w)) ->
  forall node w w', visitNode node w = inr w' -> R w w'.
Proof.
  intros Hrefl Htrans Henter Hleave node.
  induction node as [node IH] using Node_induction; intros w w' H.
  rewrite visitNode_phases in H.
  apply bind_inr in H as [[w1 l] [He H]]; simpl in H.
  apply bind_inr in H as [w2 [Hc H]]; injection H as <-.
  apply Htrans with w1; [eapply Henter; eassumption |].
  apply Htrans with w2; [| apply Hleave].
  clear He; revert w1 Hc.
  induction IH as [| c cs Hhead _ IHcs]; simpl; intros w1 Hc.
  - injection Hc as <-; apply Hrefl.
  - apply bind_inr in Hc as [w3 [Hv Hc]].
    apply Htrans with w3; [apply Hhead; assumption | apply IHcs; assumption].
Qed.

Lemma visitNode_config_failures (node : Node) (w w' : Walker) :
  visitNode node w = inr w' ->
  sameConfiguration w w'
  /\ exists new, failures w' = (failures w ++ new)%list.
Proof.
  apply (visitNode_preserves
           (fun a b => sameConfiguration a b
                       /\ exists new, failures b = (failures a ++ new)%list)).
  - intros a; split; [apply sameConfiguration_refl |].
    exists []; now rewrite app_nil_r.
  - intros a b c [Hab [n1 H1]] [Hbc [n2 H2]]; split;
      [eapply sameConfiguration_trans; eassumption |].
    exists (n1 ++ n2)%list; now rewrite H2, H1, app_assoc.
  - intros n a b l He.
    apply enter_cases in He
      as [[_ ->] | [[_ [f [-> _]]] | [[_ [_ [_ ->]]] | [_ [_ [nm [_ ->]]]]]]];
      try (destruct (addFailure_cases f a) as [-> | ->]);
      (split; [unfold sameConfiguration; simpl; repeat split |]); simpl;
      try (exists []; now rewrite app_nil_r).
    exists [f]; reflexivity.
  - intros l n a; destruct l; simpl;
      (split; [unfold sameConfiguration; simpl; repeat split |]);
      exists []; now rewrite app_nil_r.
Qed.

(** A visit, with everything below it, leaves the source file, the options,
    the thresholds and the pattern of the walker as they were, and only adds
    failures after the ones already recorded. *)
Theorem visit_keeps_configuration_and_failures (node : Node)
  (w w' : Walker) :
  visitNode node w = inr w' ->
  sameConfiguration w w'
  /\ exists new, failures w' = (failures w ++ new)%list.
Proof. apply visitNode_config_failures. Qed.

(** ** The suppression list across a visit *)

Lemma filter_all {A} (p : A -> bool) (l : list A) :
  (forall x, In x l -> p x = true) -> filter p l = l.
Proof.
  induction l as [| x l IH]; simpl; intros H; [reflexivity |].
  rewrite (H x (or_introl eq_refl)), IH; auto.
Qed.

Lemma filter_none {A} (p : A -> bool) (l : list A) :
  (forall x, In x l -> p x = false) -> filter p l = [].
Proof.
  induction l as [| x l IH]; simpl; intros H; [reflexivity |].
  rewrite (H x (or_introl eq_refl)), IH; auto.
Qed.

Lemma filter_twice {A} (p q : A -> bool) (l : list A) :
  filter q (filter p l) = filter (fun x => p x && q x) l.
Proof.
  induction l as [| x l IH]; simpl; [reflexivity |].
  destruct (p x); simpl; [destruct (q x) |]; now rewrite IH.
Qed.

Lemma forEachChild_ignore_filter (cs : list (Role * Node)) :
  Forall (fun c => forall w w',
              visitNode (snd c) w = inr w' ->
              exists p, ignoreNodes w' = filter p (ignoreNodes w)
                        /\ forall i, ~ In i (ids (snd c)) -> p i = true) cs ->
  forall w w',
    forEachChild visitNode cs w = inr w' ->
    exists p, ignoreNodes w' = filter p (ignoreNodes w)
              /\ forall i, ~ In i (childIds cs) -> p i = true.
Proof.
  induction 1 as [| c cs Hc _ IH]; simpl; intros w w' H.
  - injection H as <-; exists (fun _ => true); split; [| reflexivity].
    symmetry; now apply filter_all.
  - apply bind_inr in H as [w1 [Hv H]].
    apply Hc in Hv as [p1 [H1 Hp1]]; apply IH in H as [p2 [H2 Hp2]].
    exists (fun i => p1 i && p2 i); split.
    + now rewrite H2, H1, filter_twice.
    + intros i Hi; rewrite Hp1, Hp2; [reflexivity | |];
        intros Hin; apply Hi, in_or_app; auto.
Qed.

Lemma visitNode_ignore_filter (node : Node) :
  forall w w',
    visitNode node w = inr w' ->
    exists p, ignoreNodes w' = filter p (ignoreNodes w)
              /\ forall i, ~ In i (ids node) -> p i = true.
Proof.
  induction node as [node IH] using Node_induction; intros w w' H.
  rewrite visitNode_phases in H.
  apply bind_inr in H as [[w1 l] [He H]]; simpl in H.
  apply bind_inr in H as [w2 [Hc H]]; injection H as <-.
  apply (forEachChild_ignore_filter _ IH) in Hc as [p [Hp Hout]].
  rewrite ids_unfold.
  apply enter_cases in He
    as [[-> ->] | [[-> [f [-> _]]] | [[-> [_ [_ ->]]] | [-> [_ [nm [_ ->]]]]]]];
    rewrite ?addFailure_ignoreNodes in Hp; simpl in *;
    try (exists p; split; [assumption |];
         intros i Hi; apply Hout; intros Hin; apply Hi; now right).
  set (q := fun i => negb (existsb (fun e => Nat.eqb i (nid e))
                             (arguments node))).
  exists (fun i => p i && q i); split.
  - unfold removeAll; fold q.
    rewrite Hp, filter_app, filter_app, !filter_twice.
    rewrite (filter_none (fun x => p x && q x) (map nid (arguments node))).
    + now rewrite app_nil_r.
    + intros x Hx; apply in_map_iff in Hx as [a [<- Ha]].
      unfold q; replace (existsb _ _) with true;
        [apply andb_false_r |].
      symmetry; apply existsb_exists; exists a; split;
        [assumption | apply Nat.eqb_refl].
  - intros i Hi; rewrite Hout by (intros Hin; apply Hi; now right).
    simpl; unfold q; apply negb_true_iff.
    destruct (existsb _ _) eqn:Hex; [| reflexivity].
    apply existsb_exists in Hex as [a [Ha Heq]]; apply Nat.eqb_eq in Heq.
    exfalso; apply Hi; right; subst; now apply arguments_childIds.
Qed.

(** A visit puts the suppression list back as it found it: when no identity
    of the subtree is in the list beforehand, the list after the visit is the
    list before it.  In particular a walk that starts with the empty list ends
    with the empty list. *)
Theorem visit_restores_suppression_list (node : Node) (w w' : Walker) :
  (forall i, In i (ignoreNodes w) -> ~ In i (ids node)) ->
  visitNode node w = inr w' ->
  ignoreNodes w' = ignoreNodes w.
Proof.
  intros Hfresh H.
  apply visitNode_ignore_filter in H as [p [-> Hp]].
  apply filter_all; intros i Hi; apply Hp, Hfresh, Hi.
Qed.

(** ** The sign of the body length *)

Lemma line_monotone (starts : list Z) (p e : Z) :
  p <= e ->
  Nat.le (List.length (filter (fun s => s <=? p) starts))
         (List.length (filter (fun s => s <=? e) starts)).
Proof.
  intros Hpe; unfold Nat.le.
  induction starts as [| s starts IH]; simpl; [lia |].
  destruct (s <=? p) eqn:Hp.
  - apply Z.leb_le in Hp.
    replace (s <=? e) with true by (symmetry; apply Z.leb_le; lia).
    simpl; lia.
  - destruct (s <=? e); simpl; lia.
Qed.

(** The body length is 0 without a body and never negative for a body whose
    end is not before its start, whatever the line map. *)
Theorem body_length_not_negative (w : Walker) (node : Node) :
  (forall b, body node = Some b -> pos b <= end_ b) ->
  0 <= calcBodyLength w node.
Proof.
  intros Hb; unfold calcBodyLength.
  destruct (body node) as [b |]; [| lia].
  specialize (Hb b eq_refl); unfold getLineAndCharacterOfPosition; simpl.
  pose proof (line_monotone (lineStarts (getSourceFile w)) _ _ Hb) as Hm.
  unfold Nat.le in Hm; lia.
Qed.

(** ** Which exceptions the analysis throws, and when the walk throws none *)

Lemma validate_throws (node : Node) (w : Walker) (e : Exception) :
  supported (kind node) = true ->
  validate node w = inl e -> e = TypeError.
Proof.
  intros Hk; unfold validate, isFunctionTooLong.
  rewrite (getMaxLength_supported w _ Hk); simpl.
  destruct (negb (contains (ignoreNodes w) node)); [| discriminate].
  destruct (js_gt _ _); [| discriminate].
  unfold addFuncBodyTooLongFailure, formatFailureText, formatPlaceText.
  rewrite (getMaxLength_supported w _ Hk); unfold nameText.
  destruct (kind node); try discriminate; simpl;
    try discriminate;
    (destruct (name node); simpl; [discriminate |]);
    intros H; injection H as <-; reflexivity.
Qed.

Lemma enter_throws (node : Node) (w : Walker) (e : Exception) :
  enter node w = inl e -> e = TypeError.
Proof.
  unfold enter; destruct (kind node) eqn:Hk; try discriminate;
    try (destruct (validate node w) as [e' | w1] eqn:Hv; simpl;
         [| discriminate];
         intros H; injection H as <-;
         apply (validate_throws node w); [rewrite Hk; reflexivity | assumption]).
  - unfold nameText; destruct (name node); simpl; [discriminate |].
    intros H; injection H as <-; reflexivity.
  - unfold getFunctionName.
    destruct (expression node) as [callee |]; simpl.
    + destruct (text callee); simpl;
        [| destruct (name callee); simpl];
        destruct (match ignoreParametersToFunctionRegex w with
                  | Some regex => RegExp_test regex _
                  | None => false
                  end); discriminate.
    + intros H; injection H as <-; reflexivity.
Qed.

Lemma visitNode_throws (node : Node) :
  forall w e, visitNode node w = inl e -> e = TypeError.
Proof.
  induction node as [node IH] using Node_induction; intros w e H.
  rewrite visitNode_phases in H.
  destruct (enter node w) as [e' | [w1 l]] eqn:He; simpl in H.
  - injection H as <-; eapply enter_throws; eassumption.
  - destruct (forEachChild visitNode (children node) w1) as [e' | w2] eqn:Hc;
      simpl in H; [| discriminate].
    injection H as <-; clear He; revert w1 Hc.
    induction IH as [| c cs Hhead _ IHcs]; simpl; intros w1 Hc;
      [discriminate |].
    destruct (visitNode (snd c) w1) as [e1 | w3] eqn:Hv; simpl in Hc.
    + injection Hc as <-; eapply Hhead; eassumption.
    + eapply IHcs; eassumption.
Qed.

Lemma forEach_parseOption_throws (opts : list OptionEntry) :
  forall w e,
    forEach parseOption opts w = inl e ->
    (e = TypeError /\ In OptNull opts)
    \/ exists opt regex,
         In opt opts /\ patternOf opt = Some regex
         /\ RegExp_new regex = None /\ e = SyntaxError regex.
Proof.
  induction opts as [| opt opts IH]; simpl; intros w e H; [discriminate |].
  destruct (parseOption opt w) as [e' | w1] eqn:Hopt; simpl in H.
  - injection H as <-.
    destruct opt as [n | o | |]; simpl in Hopt; try discriminate.
    + right; exists (OptObject o); simpl.
      destruct (ignore_parameters_to_function_regex o) as [regex |];
        [| discriminate].
      destruct (String.eqb regex ""); [discriminate |].
      destruct (RegExp_new regex) eqn:Hr; [discriminate |].
      injection Hopt as <-; exists regex; auto.
    + injection Hopt as <-; left; auto.
  - apply IH in H as [[-> Hin] | [opt' [regex [Hin H]]]];
      [left; auto | right; exists opt', regex; auto].
Qed.

(** The analysis throws nothing but a [TypeError] (a [null] option entry, or
    a node lacking the callee or name that its visit reads) or the
    [SyntaxError] of a pattern among the options that does not compile; the
    internal error for an unsupported kind is never thrown. *)
Theorem analysis_throws_only_type_or_syntax_errors (sf : TsSourceFile)
  (opts : IOptions) (e : Exception) :
  apply sf opts = inl e ->
  e = TypeError
  \/ exists opt regex,
       In opt (ruleArguments opts) /\ patternOf opt = Some regex
       /\ RegExp_new regex = None /\ e = SyntaxError regex.
Proof.
  unfold apply, newWalker, parseOptions, getOptions, walk; simpl.
  destruct (forEach parseOption (ruleArguments opts) _) as [e' | w] eqn:Hp;
    simpl.
  - intros H; injection H as <-.
    apply forEach_parseOption_throws in Hp as [[-> _] | Hs]; auto.
  - destruct (visitNode (root sf) w) as [e' | w'] eqn:Hv; simpl;
      [| discriminate].
    intros H; injection H as <-; left; eapply visitNode_throws; eassumption.
Qed.

Lemma validate_succeeds (node : Node) (w : Walker) :
  supported (kind node) = true ->
  wellNamed node = true ->
  exists w1, validate node w = inr w1.
Proof.
  intros Hk Hn; unfold validate, isFunctionTooLong.
  rewrite (getMaxLength_supported w _ Hk); simpl.
  destruct (negb (contains (ignoreNodes w) node)); [| eexists; reflexivity].
  destruct (js_gt _ _); [| eexists; reflexivity].
  unfold addFuncBodyTooLongFailure, formatFailureText, formatPlaceText.
  rewrite (getMaxLength_supported w _ Hk); unfold nameText.
  unfold wellNamed in Hn.
  destruct (kind node); try discriminate; simpl;
    try (eexists; reflexivity);
    (destruct (name node); [simpl; eexists; reflexivity | discriminate]).
Qed.

Lemma enter_succeeds (node : Node) (w : Walker) :
  wellNamed node = true -> exists p, enter node w = inr p.
Proof.
  intros Hn; unfold enter.
  destruct (kind node) eqn:Hk; try (eexists; reflexivity);
    try (destruct (validate_succeeds node w) as [w1 ->];
         [rewrite Hk; reflexivity | assumption | simpl; eexists; reflexivity]).
  - unfold wellNamed in Hn; rewrite Hk in Hn; unfold nameText.
    destruct (name node); [simpl; eexists; reflexivity | discriminate].
  - unfold wellNamed in Hn; rewrite Hk in Hn; unfold getFunctionName.
    destruct (expression node) as [callee |]; [| discriminate].
    destruct (text callee); simpl;
      [| destruct (name callee); simpl];
      destruct (match ignoreParametersToFunctionRegex w with
                | Some regex => RegExp_test regex _
                | None => false
                end); eexists; reflexivity.
Qed.

Lemma descendants_unfold (node : Node) :
  descendants node =
  node :: flat_map (fun c => descendants (snd c)) (children node).
Proof. destruct node; reflexivity. Qed.

(** The walk of a subtree throws nothing when every call in it has a callee
    and every class, function and method declaration in it has a name. *)
Theorem walk_of_named_tree_succeeds (node : Node) (w : Walker) :
  forallb wellNamed (descendants node) = true ->
  exists w', visitNode node w = inr w'.
Proof.
  revert w; induction node as [node IH] using Node_induction; intros w H.
  rewrite descendants_unfold in H; simpl in H.
  apply andb_true_iff in H as [Hn Hcs].
  rewrite visitNode_phases.
  destruct (enter_succeeds node w Hn) as [[w1 l] ->]; simpl.
  assert (Hall : exists w2, forEachChild visitNode (children node) w1 = inr w2).
  { clear Hn; revert w1 Hcs.
    induction IH as [| c cs Hhead _ IHcs]; simpl; intros w1 Hcs;
      [eexists; reflexivity |].
    rewrite forallb_app in Hcs; apply andb_true_iff in Hcs as [Hc Hrest].
    destruct (Hhead w1 Hc) as [w3 ->]; simpl; apply IHcs; assumption. }
  destruct Hall as [w2 ->]; simpl; eexists; reflexivity.
Qed.

(** ** Which nodes the analysis reports *)

Lemma forEachChild_config_failures (cs : list (Role * Node)) :
  forall w w',
    forEachChild visitNode cs w = inr w' ->
    sameConfiguration w w'
    /\ exists new, failures w' = (failures w ++ new)%list.
Proof.
  induction cs as [| c cs IH]; simpl; intros w w' H.
  - injection H as <-; split; [apply sameConfiguration_refl |].
    exists []; now rewrite app_nil_r.
  - apply bind_inr in H as [w1 [Hv H]].
    apply visitNode_config_failures in Hv as [Hc1 [n1 H1]].
    apply IH in H as [Hc2 [n2 H2]]; split;
      [eapply sameConfiguration_trans; eassumption |].
    exists (n1 ++ n2)%list; now rewrite H2, H1, app_assoc.
Qed.

Lemma resolvedThreshold_config (w w1 : Walker) (k : SyntaxKind) :
  sameConfiguration w w1 -> resolvedThreshold w1 k = resolvedThreshold w k.
Proof.
  intros [_ [_ [Hb [Hf [Ha [Hm [Hc _]]]]]]].
  unfold resolvedThreshold, perKindMaximum.
  destruct k; rewrite ?Hb, ?Hf, ?Ha, ?Hm, ?Hc; reflexivity.
Qed.

Lemma calcBodyLength_config (w w1 : Walker) (node : Node) :
  sameConfiguration w w1 -> calcBodyLength w1 node = calcBodyLength w node.
Proof.
  intros [Hs _]; unfold calcBodyLength, getSourceFile; now rewrite Hs.
Qed.

Lemma reportOf_config (w w1 : Walker) (d : Node) (f : RuleFailure) :
  sameConfiguration w w1 -> reportOf w1 d f -> reportOf w d f.
Proof.
  intros Hc [Hk [Hn [Hs [Hw [t [place [Hr [Hlt Hm]]]]]]]].
  rewrite (resolvedThreshold_config _ _ _ Hc) in Hr.
  rewrite (calcBodyLength_config _ _ _ Hc) in Hlt, Hm.
  repeat split; try assumption; exists t, place; auto.
Qed.

Lemma suppresses_config (w w1 : Walker) (call : Node) :
  sameConfiguration w w1 -> suppresses w1 call -> suppresses w call.
Proof.
  intros [_ [_ [_ [_ [_ [_ [_ [Hre _]]]]]]]] [regex [fn [H1 H2]]].
  exists regex, fn; split; [congruence | assumption].
Qed.

Lemma enter_config (node : Node) (w w1 : Walker) (l : Leave) :
  enter node w = inr (w1, l) -> sameConfiguration w w1.
Proof.
  intros He; apply enter_cases in He
    as [[_ ->] | [[_ [f [-> _]]] | [[_ [_ [_ ->]]] | [_ [_ [nm [_ ->]]]]]]];
    try (destruct (addFailure_cases f w) as [-> | ->]);
    unfold sameConfiguration; simpl; repeat split.
Qed.

Lemma leave_failures (l : Leave) (node : Node) (w : Walker) :
  failures (leave l node w) = failures w.
Proof. destruct l; reflexivity. Qed.

Lemma forEachChild_sound (cs : list (Role * Node)) :
  Forall (fun c => forall w w',
              visitNode (snd c) w = inr w' ->
              exists new,
                failures w' = (failures w ++ new)%list
                /\ Forall (fun f => exists d, In d (descendants (snd c))
                                              /\ reportOf w d f) new) cs ->
  forall w w',
    forEachChild visitNode cs w = inr w' ->
    exists new,
      failures w' = (failures w ++ new)%list
      /\ Forall (fun f => exists d,
                     In d (flat_map (fun c => descendants (snd c)) cs)
                     /\ reportOf w d f) new.
Proof.
  induction 1 as [| c cs Hc _ IH]; simpl; intros w w' H.
  - injection H as <-; exists []; split; [now rewrite app_nil_r | constructor].
  - apply bind_inr in H as [w1 [Hv H]].
    pose proof (visitNode_config_failures _ _ _ Hv) as [Hcfg _].
    apply Hc in Hv as [n1 [H1 Hr1]]; apply IH in H as [n2 [H2 Hr2]].
    exists (n1 ++ n2)%list; split; [now rewrite H2, H1, app_assoc |].
    apply Forall_app; split.
    + eapply Forall_impl; [| exact Hr1]; simpl.
      intros f [d [Hd Hf]]; exists d; split; [apply in_or_app; now left | auto].
    + eapply Forall_impl; [| exact Hr2]; simpl.
      intros f [d [Hd Hf]]; exists d; split; [apply in_or_app; now right |].
      eapply reportOf_config; eassumption.
Qed.

Lemma visitNode_sound (node : Node) :
  forall w w',
    visitNode node w = inr w' ->
    exists new,
      failures w' = (failures w ++ new)%list
      /\ Forall (fun f => exists d, In d (descendants node) /\ reportOf w d f)
           new.
Proof.
  induction node as [node IH] using Node_induction; intros w w' H.
  rewrite visitNode_phases in H.
  apply bind_inr in H as [[w1 l] [He H]]; simpl in H.
  apply bind_inr in H as [w2 [Hc H]]; injection H as <-.
  pose proof (enter_config _ _ _ _ He) as Hcfg.
  apply (forEachChild_sound _ IH) in Hc as [new [Hf Hnew]].
  rewrite descendants_unfold, leave_failures, Hf.
  assert (Hnew' : Forall (fun f => exists d,
                    In d (node :: flat_map (fun c => descendants (snd c))
                                     (children node))
                    /\ reportOf w d f) new).
  { eapply Forall_impl; [| exact Hnew]; simpl.
    intros f [d [Hd Hr]]; exists d; split; [now right |].
    eapply reportOf_config; eassumption. }
  apply enter_cases in He
    as [[_ ->] | [[_ [f [-> [_ Hr]]]] | [[_ [_ [_ ->]]] | [_ [_ [nm [_ ->]]]]]]];
    try (destruct (addFailure_cases f w) as [-> | ->]);
    simpl; try (exists new; split; [reflexivity | assumption]).
  exists (f :: new); split; [now rewrite <- app_assoc |].
  constructor; [| assumption].
  exists node; split; [now left | assumption].
Qed.

(** Every failure that the analysis returns is the report of a node of the
    file: a node of one of the four supported kinds whose body length exceeds
    the resolved threshold of its kind, the failure spanning the node from its
    start over its width and carrying the message for that threshold and
    length. *)
Theorem every_failure_reports_a_too_long_node (sf : TsSourceFile)
  (opts : IOptions) (fs : list RuleFailure) :
  apply sf opts = inr fs ->
  exists w,
    newWalker sf opts = inr w
    /\ Forall (fun f => exists d, In d (descendants (root sf))
                                  /\ reportOf w d f) fs.
Proof.
  unfold apply, walk, getFailures; intros H.
  apply bind_inr in H as [w [Hnew H]].
  apply bind_inr in H as [w' [Hwalk H]]; injection H as <-.
  exists w; split; [assumption |].
  apply visitNode_sound in Hwalk as [new [Hf Hnew']].
  unfold newWalker, parseOptions in Hnew.
  apply forEach_parseOption_fields in Hnew as [_ [_ [Hempty _]]].
  simpl in Hempty; rewrite Hf, Hempty; assumption.
Qed.

Lemma validate_reports (node : Node) (w w1 : Walker) (t : Z) :
  contains (ignoreNodes w) node = false ->
  supported (kind node) = true ->
  resolvedThreshold w (kind node) = Some t ->
  t < calcBodyLength w node ->
  validate node w = inr w1 ->
  w1 = addFailure
         (createFailure (getStart node) (getWidth node)
            (messageShape (kindLabel (kind node)) (placeClause w node)
               (Some t) (calcBodyLength w node)) node) w.
Proof.
  intros Hc Hk Hr Hlt; unfold validate, isFunctionTooLong.
  rewrite Hc, (getMaxLength_supported w _ Hk), Hr; simpl.
  replace (calcBodyLength w node >? t) with true
    by (symmetry; apply Z.gtb_lt; assumption).
  unfold addFuncBodyTooLongFailure; intros H.
  apply bind_inr in H as [message [Hmsg H]]; injection H as <-.
  apply formatFailureText_shape in Hmsg as [threshold [Ht ->]].
  rewrite (getMaxLength_supported w _ Hk), Hr in Ht; injection Ht as <-.
  reflexivity.
Qed.

Lemma enter_supported (node : Node) (w : Walker) :
  supported (kind node) = true ->
  enter node w = (w1 <- validate node w ;; ret (w1, LeaveNothing)).
Proof.
  unfold enter; destruct (kind node); try discriminate; reflexivity.
Qed.

Lemma suppressedId_below (w w1 : Walker) (node : Node) (c : Role * Node)
  (i : nat) :
  sameConfiguration w w1 ->
  In c (children node) ->
  suppressedId w1 (snd c) i -> suppressedId w node i.
Proof.
  intros Hcfg Hc [call [a [Hin [Hk [Hs [Ha Hi]]]]]].
  exists call, a; repeat split; try assumption.
  - rewrite descendants_unfold; right; apply in_flat_map; eauto.
  - eapply suppresses_config; eassumption.
Qed.

Lemma addFailure_records (f0 : RuleFailure) (w : Walker) :
  doesIntersect f0 (disabledIntervals w) = false ->
  exists f,
    In f (failures (addFailure f0 w))
    /\ startPosition f = startPosition f0
    /\ width f = width f0
    /\ failure f = failure f0.
Proof.
  intros Hdis; unfold addFailure; rewrite Hdis.
  destruct (existsFailure w f0) eqn:Hex; simpl.
  - unfold existsFailure in Hex.
    apply existsb_exists in Hex as [g [Hin Heq]]; unfold RuleFailure_equals in Heq.
    apply andb_true_iff in Heq as [Heq Hend].
    apply andb_true_iff in Heq as [Htext Hstart].
    apply String.eqb_eq in Htext; apply Z.eqb_eq in Hstart, Hend.
    unfold getEndPosition in Hend.
    exists g; repeat split; try assumption; lia.
  - exists f0; repeat split; apply in_or_app; right; now left.
Qed.

Lemma validate_records (node : Node) (w w1 : Walker) (t : Z) :
  contains (ignoreNodes w) node = false ->
  supported (kind node) = true ->
  resolvedThreshold w (kind node) = Some t ->
  t < calcBodyLength w node ->
  disabledAt w node = false ->
  validate node w = inr w1 ->
  exists f,
    In f (failures w1)
    /\ startPosition f = getStart node
    /\ width f = getWidth node
    /\ failure f = messageShape (kindLabel (kind node)) (placeClause w node)
                     (Some t) (calcBodyLength w node).
Proof.
  intros Hc Hk Hr Hlt Hdis Hv.
  apply (validate_reports node w w1 t Hc Hk Hr Hlt) in Hv; subst w1.
  apply addFailure_records; exact Hdis.
Qed.

Lemma disabledAt_config (w w1 : Walker) (d : Node) :
  sameConfiguration w w1 -> disabledAt w1 d = disabledAt w d.
Proof.
  intros [_ [_ [_ [_ [_ [_ [_ [_ Hd]]]]]]]]; unfold disabledAt; now rewrite Hd.
Qed.

Lemma reportsSpanOf_config (w w1 : Walker) (d : Node) (f : RuleFailure) :
  sameConfiguration w w1 -> reportsSpanOf w1 d f -> reportsSpanOf w d f.
Proof.
  intros Hc [Hs [Hw [t [place [Hr [Hlt Hm]]]]]].
  rewrite (resolvedThreshold_config _ _ _ Hc) in Hr.
  rewrite (calcBodyLength_config _ _ _ Hc) in Hlt, Hm.
  repeat split; try assumption; exists t, place; auto.
Qed.

Lemma forEachChild_complete (Q : nat -> Prop) (cs : list (Role * Node)) :
  Forall (fun c => forall w w',
              (forall i, suppressedId w (snd c) i -> Q i) ->
              (forall i, In i (ignoreNodes w) -> Q i) ->
              visitNode (snd c) w = inr w' ->
              forall d t,
                In d (descendants (snd c)) ->
                supported (kind d) = true ->
                resolvedThreshold w (kind d) = Some t ->
                t < calcBodyLength w d ->
                disabledAt w d = false ->
                ~ Q (nid d) ->
                exists f, In f (failures w') /\ reportsSpanOf w d f) cs ->
  forall w w',
    (forall c i, In c cs -> suppressedId w (snd c) i -> Q i) ->
    (forall i, In i (ignoreNodes w) -> Q i) ->
    forEachChild visitNode cs w = inr w' ->
    forall d t,
      In d (flat_map (fun c => descendants (snd c)) cs) ->
      supported (kind d) = true ->
      resolvedThreshold w (kind d) = Some t ->
      t < calcBodyLength w d ->
      disabledAt w d = false ->
      ~ Q (nid d) ->
      exists f, In f (failures w') /\ reportsSpanOf w d f.
Proof.
  induction 1 as [| c cs Hc _ IH]; simpl;
    intros w w' Hsup Hign H d t Hd Hk Hr Hlt Hdis Hq; [contradiction |].
  apply bind_inr in H as [w1 [Hv H]].
  pose proof (visitNode_config_failures _ _ _ Hv) as [Hcfg _].
  apply in_app_or in Hd as [Hd | Hd].
  - destruct (Hc w w1 (fun i => Hsup c i (or_introl eq_refl)) Hign Hv
                d t Hd Hk Hr Hlt Hdis Hq) as [f [Hf Hrep]].
    apply forEachChild_config_failures in H as [_ [n2 H2]].
    exists f; split; [rewrite H2; apply in_or_app; now left | assumption].
  - apply visitNode_ignore_filter in Hv as [p [Hp _]].
    destruct (IH w1 w') with (d := d) (t := t) as [f [Hf Hrep]];
      try assumption.
    + intros c' i Hc' [call [a [Hin [Hkc [Hs [Ha Hi]]]]]].
      apply (Hsup c' i (or_intror Hc')).
      exists call, a; repeat split; try assumption.
      eapply suppresses_config; eassumption.
    + intros i Hi; rewrite Hp in Hi; apply filter_In in Hi as [Hi _]; auto.
    + now rewrite (resolvedThreshold_config _ _ _ Hcfg).
    + now rewrite (calcBodyLength_config _ _ _ Hcfg).
    + now rewrite (disabledAt_config _ _ _ Hcfg).
    + exists f; split; [assumption |].
      eapply reportsSpanOf_config; eassumption.
Qed.

Lemma visitNode_complete (Q : nat -> Prop) (node : Node) :
  forall w w',
    (forall i, suppressedId w node i -> Q i) ->
    (forall i, In i (ignoreNodes w) -> Q i) ->
    visitNode node w = inr w' ->
    forall d t,
      In d (descendants node) ->
      supported (kind d) = true ->
      resolvedThreshold w (kind d) = Some t ->
      t < calcBodyLength w d ->
      disabledAt w d = false ->
      ~ Q (nid d) ->
      exists f, In f (failures w') /\ reportsSpanOf w d f.
Proof.
  induction node as [node IH] using Node_induction.
  intros w w' Hsup Hign H d t Hd Hk Hr Hlt Hdis Hq.
  rewrite visitNode_phases in H.
  apply bind_inr in H as [[w1 l] [He H]]; simpl in H.
  apply bind_inr in H as [w2 [Hc H]]; injection H as <-.
  rewrite leave_failures.
  pose proof (enter_config _ _ _ _ He) as Hcfg.
  rewrite descendants_unfold in Hd; destruct Hd as [<- | Hd].
  - rewrite (enter_supported node w Hk) in He.
    apply bind_inr in He as [wv [Hv He]]; injection He as <- <-.
    assert (Hnot : contains (ignoreNodes w) node = false).
    { destruct (contains (ignoreNodes w) node) eqn:Hcn; [| reflexivity].
      apply contains_In in Hcn; exfalso; apply Hq, Hign, Hcn. }
    apply (validate_records node w wv t Hnot Hk Hr Hlt Hdis) in Hv
      as [f [Hf [Hs [Hw Hm]]]].
    apply forEachChild_config_failures in Hc as [_ [new Hnew]].
    exists f; split; [rewrite Hnew; apply in_or_app; now left |].
    repeat split; try assumption.
    exists t, (placeClause w node); auto.
  - destruct (forEachChild_complete Q _ IH w1 w2) with (d := d) (t := t)
      as [f [Hf Hrep]]; try assumption.
    + intros c i Hcin Hs; apply Hsup.
      eapply suppressedId_below; eassumption.
    + apply enter_cases in He
        as [[_ ->] | [[_ [f [-> _]]] | [[_ [Hkc [Hs ->]]] | [_ [_ [nm [_ ->]]]]]]];
        rewrite ?addFailure_ignoreNodes; simpl; try assumption.
      intros i Hi; apply in_app_or in Hi as [Hi | Hi]; [auto |].
      apply in_map_iff in Hi as [a [<- Ha]].
      apply Hsup; exists node, a; repeat split; try assumption.
      rewrite descendants_unfold; now left.
    + now rewrite (resolvedThreshold_config _ _ _ Hcfg).
    + now rewrite (calcBodyLength_config _ _ _ Hcfg).
    + now rewrite (disabledAt_config _ _ _ Hcfg).
    + exists f; split; [assumption |].
      eapply reportsSpanOf_config; eassumption.
Qed.

(** When the analysis returns, it has recorded, for every node of a supported
    kind whose body length exceeds the resolved threshold of its kind, a
    failure that spans the node and carries its message, unless the node has
    the identity of an argument of a call whose callee name matches the
    pattern or the rule is disabled somewhere on the span of the node. *)
Theorem too_long_unsuppressed_node_is_reported (sf : TsSourceFile)
  (opts : IOptions) (fs : list RuleFailure) (w : Walker)
  (d : Node) (t : Z) :
  apply sf opts = inr fs ->
  newWalker sf opts = inr w ->
  In d (descendants (root sf)) ->
  supported (kind d) = true ->
  resolvedThreshold w (kind d) = Some t ->
  t < calcBodyLength w d ->
  disabledAt w d = false ->
  ~ suppressedId w (root sf) (nid d) ->
  exists f, In f fs /\ reportsSpanOf w d f.
Proof.
  unfold apply, walk, getFailures; intros H Hnew Hd Hk Hr Hlt Hdis Hq.
  rewrite Hnew in H; simpl in H.
  apply bind_inr in H as [w' [Hwalk H]]; injection H as <-.
  apply (visitNode_complete (suppressedId w (root sf)) (root sf) w w')
    with (t := t); try assumption; [auto |].
  unfold newWalker, parseOptions in Hnew.
  apply forEach_parseOption_fields in Hnew as [_ [_ [_ [Hempty _]]]].
  simpl in Hempty; rewrite Hempty; contradiction.
Qed.

(** ** No node is reported twice *)

Lemma forEachChild_anchors (cs : list (Role * Node)) :
  Forall (fun c => NoDup (ids (snd c)) ->
                   forall w w',
                     visitNode (snd c) w = inr w' ->
                     exists new,
                       failures w' = (failures w ++ new)%list
                       /\ Forall (fun f => In (failureNode f) (ids (snd c))) new
                       /\ NoDup (map failureNode new)) cs ->
  NoDup (childIds cs) ->
  forall w w',
    forEachChild visitNode cs w = inr w' ->
    exists new,
      failures w' = (failures w ++ new)%list
      /\ Forall (fun f => In (failureNode f) (childIds cs)) new
      /\ NoDup (map failureNode new).
Proof.
  induction 1 as [| c cs Hc _ IH]; simpl; intros Hnd w w' H.
  - injection H as <-; exists []; repeat split;
      [now rewrite app_nil_r | constructor | constructor].
  - apply bind_inr in H as [w1 [Hv H]].
    apply Hc in Hv as [n1 [H1 [Ha1 Hd1]]];
      [| eapply NoDup_app_remove_r; exact Hnd].
    apply IH in H as [n2 [H2 [Ha2 Hd2]]];
      [| eapply NoDup_app_remove_l; exact Hnd].
    exists (n1 ++ n2)%list; repeat split.
    + now rewrite H2, H1, app_assoc.
    + apply Forall_app; split;
        (eapply Forall_impl; [| eassumption]); simpl; intros f Hf;
        apply in_or_app; auto.
    + rewrite map_app; apply NoDup_app; try assumption.
      intros i Hi1 Hi2.
      apply in_map_iff in Hi1 as [f1 [<- Hf1]].
      apply in_map_iff in Hi2 as [f2 [Heq Hf2]].
      rewrite Forall_forall in Ha1, Ha2.
      apply (NoDup_app_disjoint _ _ Hnd (failureNode f1)); [auto |].
      rewrite <- Heq; auto.
Qed.

Lemma visitNode_anchors (node : Node) :
  NoDup (ids node) ->
  forall w w',
    visitNode node w = inr w' ->
    exists new,
      failures w' = (failures w ++ new)%list
      /\ Forall (fun f => In (failureNode f) (ids node)) new
      /\ NoDup (map failureNode new).
Proof.
  induction node as [node IH] using Node_induction; intros Hnd w w' H.
  rewrite ids_unfold in *; inversion Hnd as [| ? ? Hself Hcs]; subst.
  rewrite visitNode_phases in H.
  apply bind_inr in H as [[w1 l] [He H]]; simpl in H.
  apply bind_inr in H as [w2 [Hc H]]; injection H as <-.
  apply (forEachChild_anchors _ IH Hcs) in Hc as [new [Hf [Ha Hd]]].
  rewrite leave_failures, Hf.
  assert (Ha' : Forall (fun f => In (failureNode f)
                                   (nid node :: childIds (children node))) new)
    by (eapply Forall_impl; [| exact Ha]; simpl; intros f Hin; now right).
  apply enter_cases in He
    as [[_ ->] | [[_ [f [-> [_ Hr]]]] | [[_ [_ [_ ->]]] | [_ [_ [nm [_ ->]]]]]]];
    try (destruct (addFailure_cases f w) as [-> | ->]);
    simpl; try (exists new; repeat split; assumption).
  destruct Hr as [_ [Hanchor _]].
  exists (f :: new); repeat split.
  - now rewrite <- app_assoc.
  - constructor; [rewrite Hanchor; now left | assumption].
  - simpl; constructor; [| assumption].
    rewrite Hanchor; intros Hin.
    apply in_map_iff in Hin as [f' [Heq Hf']].
    rewrite Forall_forall in Ha; apply Hself; rewrite <- Heq; auto.
Qed.

(** In a file whose nodes have distinct identities, the analysis returns at
    most one failure per node. *)
Theorem no_node_is_reported_twice (sf : TsSourceFile)
  (opts : IOptions) (fs : list RuleFailure) :
  NoDup (ids (root sf)) ->
  apply sf opts = inr fs ->
  NoDup (map failureNode fs).
Proof.
  unfold apply, walk, getFailures; intros Hnd H.
  apply bind_inr in H as [w [Hnew H]].
  apply bind_inr in H as [w' [Hwalk H]]; injection H as <-.
  apply (visitNode_anchors _ Hnd) in Hwalk as [new [Hf [_ Hd]]].
  unfold newWalker, parseOptions in Hnew.
  apply forEach_parseOption_fields in Hnew as [_ [_ [Hempty _]]].
  simpl in Hempty; rewrite Hf, Hempty; assumption.
Qed.

(** ** The class name in constructor messages *)

Lemma forEachChild_app (a b : list (Role * Node)) (w : Walker) :
  forEachChild visitNode (a ++ b) w =
  (w1 <- forEachChild visitNode a w ;; forEachChild visitNode b w1).
Proof.
  revert w; induction a as [| c a IH]; intros w; simpl; [reflexivity |].
  destruct (visitNode (snd c) w) as [e | w1]; simpl; [reflexivity | apply IH].
Qed.

Lemma forEachChild_className_kept (cs : list (Role * Node)) :
  Forall (fun c => (forall d, In d (descendants (snd c)) ->
                              kind d <> ClassDeclaration) ->
                   forall w w', visitNode (snd c) w = inr w' ->
                                currentClassName w' = currentClassName w) cs ->
  (forall c d, In c cs -> In d (descendants (snd c)) ->
               kind d <> ClassDeclaration) ->
  forall w w', forEachChild visitNode cs w = inr w' ->
               currentClassName w' = currentClassName w.
Proof.
  induction 1 as [| c cs Hc _ IH]; simpl; intros Hno w w' H.
  - injection H as <-; reflexivity.
  - apply bind_inr in H as [w1 [Hv H]].
    apply Hc in Hv; [| intros d; apply Hno; now left].
    apply IH in H; [congruence |].
    intros c' d Hc'; apply Hno; now right.
Qed.

Lemma visitNode_className_kept (node : Node) :
  (forall d, In d (descendants node) -> kind d <> ClassDeclaration) ->
  forall w w', visitNode node w = inr w' ->
               currentClassName w' = currentClassName w.
Proof.
  induction node as [node IH] using Node_induction; intros Hno w w' H.
  rewrite visitNode_phases in H.
  apply bind_inr in H as [[w1 l] [He H]]; simpl in H.
  apply bind_inr in H as [w2 [Hc H]]; injection H as <-.
  apply (forEachChild_className_kept _ IH) in Hc.
  - apply enter_cases in He
      as [[-> ->] | [[-> [f [-> _]]] | [[-> [_ [_ ->]]] | [_ [Hk _]]]]];
      rewrite ?addFailure_currentClassName in Hc; simpl in *;
      try assumption.
    exfalso; apply (Hno node); [rewrite descendants_unfold; now left | exact Hk].
  - intros c d Hcin Hd; apply Hno.
    rewrite descendants_unfold; right; apply in_flat_map; eauto.
Qed.

(** A constructor that is a direct child of a named class declaration, with
    no class declaration anywhere in the children before it, has, when too
    long, not suppressed and not in a disabled interval, a failure on record
    after the visit of the class that spans it and names that class in the
    place clause. *)
Theorem constructor_reports_its_class (c ctor nameNode : Node)
  (pre post : list (Role * Node)) (r : Role) (w w' : Walker) (t : Z) :
  kind c = ClassDeclaration ->
  name c = Some nameNode ->
  children c = (pre ++ (r, ctor) :: post)%list ->
  kind ctor = Constructor ->
  (forall p d, In p pre -> In d (descendants (snd p)) ->
               kind d <> ClassDeclaration) ->
  ~ In (nid ctor) (ignoreNodes w) ->
  disabledAt w ctor = false ->
  resolvedThreshold w Constructor = Some t ->
  t < calcBodyLength w ctor ->
  visitNode c w = inr w' ->
  exists f,
    In f (failures w')
    /\ startPosition f = getStart ctor
    /\ width f = getWidth ctor
    /\ failure f =
         messageShape "constructor"
           (" in class " ++ showString (text nameNode)) (Some t)
           (calcBodyLength w ctor).
Proof.
  intros Hk Hn Hch Hkc Hpre Hign Hdis Hr Hlt H.
  rewrite visitNode_phases in H.
  assert (He : enter c w
               = inr (set_currentClassName (text nameNode) w, LeaveClass))
    by (unfold enter, nameText; rewrite Hk, Hn; reflexivity).
  rewrite He in H; simpl in H.
  apply bind_inr in H as [w2 [Hc H]]; injection H as <-.
  unfold leave, set_currentClassName; simpl.
  rewrite Hch, forEachChild_app in Hc.
  apply bind_inr in Hc as [wa [Hrun Hc]]; simpl in Hc.
  apply bind_inr in Hc as [wb [Hctor Hpost]].
  assert (Hcfg : sameConfiguration w wa).
  { apply sameConfiguration_trans
      with (set_currentClassName (text nameNode) w).
    - unfold sameConfiguration; simpl; repeat split.
    - apply (forEachChild_config_failures _ _ _ Hrun). }
  assert (Hname : currentClassName wa = text nameNode).
  { apply forEachChild_className_kept in Hrun; [exact Hrun | | assumption].
    apply Forall_forall; intros p _; apply visitNode_className_kept. }
  assert (Hnot : contains (ignoreNodes wa) ctor = false).
  { destruct (contains (ignoreNodes wa) ctor) eqn:Hcn; [| reflexivity].
    apply contains_In in Hcn.
    apply forEachChild_ignore_filter in Hrun as [p [Hp _]].
    - rewrite Hp in Hcn; apply filter_In in Hcn as [Hcn _].
      exfalso; apply Hign; exact Hcn.
    - apply Forall_forall; intros x _; apply visitNode_ignore_filter. }
  rewrite visitNode_phases in Hctor.
  rewrite (enter_supported ctor wa) in Hctor by (rewrite Hkc; reflexivity).
  apply bind_inr in Hctor as [[wv l] [Hv Hctor]].
  apply bind_inr in Hv as [wv' [Hv Hret]]; injection Hret as <- <-.
  simpl in Hctor.
  apply bind_inr in Hctor as [wc [Hcc Hctor]]; injection Hctor as <-.
  apply (validate_records ctor wa wv' t) in Hv as [f [Hf [Hs [Hw Hm]]]];
    try assumption.
  - apply forEachChild_config_failures in Hcc as [_ [n1 H1]].
    apply forEachChild_config_failures in Hpost as [_ [n2 H2]].
    exists f; repeat split; try assumption.
    + rewrite H2; simpl; rewrite H1.
      apply in_or_app; left; apply in_or_app; now left.
    + rewrite Hm; unfold placeClause; rewrite Hkc, Hname; simpl.
      now rewrite (calcBodyLength_config _ _ _ Hcfg).
  - rewrite Hkc; reflexivity.
  - rewrite Hkc, (resolvedThreshold_config _ _ _ Hcfg); assumption.
  - rewrite (calcBodyLength_config _ _ _ Hcfg); assumption.
  - rewrite (disabledAt_config _ _ _ Hcfg); assumption.
Qed.

(** ** When the analysis reports nothing *)

Lemma falsy_falls_back (v fallback : JsNumber) :
  truthy v = false ->
  match v with
  | Some t => if t =? 0 then fallback else Some t
  | None => fallback
  end = fallback.
Proof.
  destruct v as [t |]; simpl; [| reflexivity].
  destruct (t =? 0); [reflexivity | discriminate].
Qed.

(** With no number among the options and no per-kind maximum other than 0 in
    the last option object, no threshold is in force and the analysis reports
    nothing, whatever the file. *)
Theorem no_threshold_no_failure (sf : TsSourceFile) (opts : IOptions)
  (fs : list RuleFailure) :
  lastNumber (ruleArguments opts) = None ->
  (forall o, lastObject (ruleArguments opts) = Some o ->
             truthy (func_body_length o) = false
             /\ truthy (arrow_body_length o) = false
             /\ truthy (method_body_length o) = false
             /\ truthy (ctor_body_length o) = false) ->
  apply sf opts = inr fs ->
  fs = [].
Proof.
  unfold apply, walk, getFailures; intros Hnum Hobj H.
  apply bind_inr in H as [w [Hnew H]].
  apply bind_inr in H as [w' [Hwalk H]]; injection H as <-.
  apply visitNode_sound in Hwalk as [new [Hf Hnew']].
  unfold newWalker, parseOptions in Hnew.
  apply forEach_parseOption_fields in Hnew
    as [_ [_ [Hempty [_ [_ [Hn [Hk _]]]]]]]; simpl in *.
  rewrite Hf, Hempty; simpl.
  destruct new as [| f rest]; [reflexivity |].
  inversion Hnew' as [| ? ? [d [_ [Hsup [_ [_ [_ [t [place [Hr _]]]]]]]]] _].
  exfalso; rewrite Hnum in Hn.
  assert (Hnone : resolvedThreshold w (kind d) = None).
  { unfold resolvedThreshold, perKindMaximum.
    destruct (lastObject (ruleArguments opts)) as [o |].
    - destruct (Hobj o eq_refl) as [Hfn [Ha [Hm Hc]]].
      injection Hk as -> -> -> ->; rewrite Hn.
      destruct (kind d); try reflexivity; now apply falsy_falls_back.
    - injection Hk as -> -> -> ->; rewrite Hn.
      destruct (kind d); reflexivity. }
  congruence.
Qed.

(** A file without a node of one of the four supported kinds gives no
    failure. *)
Theorem no_function_like_node_no_failure (sf : TsSourceFile)
  (opts : IOptions) (fs : list RuleFailure) :
  (forall d, In d (descendants (root sf)) -> supported (kind d) = false) ->
  apply sf opts = inr fs ->
  fs = [].
Proof.
  unfold apply, walk, getFailures; intros Hnone H.
  apply bind_inr in H as [w [Hnew H]].
  apply bind_inr in H as [w' [Hwalk H]]; injection H as <-.
  apply visitNode_sound in Hwalk as [new [Hf Hnew']].
  unfold newWalker, parseOptions in Hnew.
  apply forEach_parseOption_fields in Hnew as [_ [_ [Hempty _]]].
  simpl in Hempty; rewrite Hf, Hempty; simpl.
  destruct new as [| f rest]; [reflexivity |].
  inversion Hnew' as [| ? ? [d [Hd [Hsup _]]] _].
  rewrite (Hnone d Hd) in Hsup; discriminate.
Qed.

End Specification.

(** ** The statements on the sample trees *)

Import Sample.

(** C1, as worded, fails: with the fallback 1 and the pattern [describe], the
    function [inner] declared inside the arrow function passed to [describe]
    is reported, although it lies below an argument of the suppressed call. *)
Lemma nested_function_is_not_exempt :
  apply (engine := LiteralEngine) describe_nested describe_options =
    inr [MkRuleFailure 0 100
           "Max function body length exceeded in function inner() - max: 1, actual: 4"
           (nid inner)]
  /\ ~ subtreeExempt (engine := LiteralEngine) describe_nested describe_options.
Proof.
  split; [reflexivity |].
  intros H.
  specialize (H (walkerFor describe_nested describe_options) _ describe_call
                arrow inner eq_refl eq_refl).
  assert (Hall : Forall (fun x => failureNode x <> nid inner)
                   [MkRuleFailure 0 100
                      "Max function body length exceeded in function inner() - max: 1, actual: 4"
                      (nid inner)]).
  { apply H.
    - simpl; right; left; reflexivity.
    - reflexivity.
    - exists "describe", (Some "describe"); repeat split; reflexivity.
    - simpl; right; left; reflexivity.
    - simpl; right; right; left; reflexivity.
    - reflexivity. }
  inversion Hall as [| ? ? Hne _]; apply Hne; reflexivity.
Qed.

Lemma suppression_covers_arguments_only_witness :
  exists new,
    failures (after describe_call (walkerFor describe_nested describe_options))
    = (failures (walkerFor describe_nested describe_options) ++ new)%list
    /\ forall a, In a (arguments describe_call) ->
         Forall (fun f => failureNode f <> nid a) new
         /\ contains
              (ignoreNodes
                 (after describe_call
                    (walkerFor describe_nested describe_options))) a = false.
Proof.
  apply (suppression_covers_arguments_only describe_call
           (walkerFor describe_nested describe_options)).
  - reflexivity.
  - exists "describe", (Some "describe"); repeat split; reflexivity.
  - simpl; repeat constructor; simpl; intuition discriminate.
  - reflexivity.
Defined.

(** C2: the constructor of [A] comes after a method that declares a class
    [B]; leaving [B] has cleared the class name, and the message names no
    class although [A] encloses the constructor.  A constructor that no class
    declaration encloses is reported with the name unset as well. *)
Theorem nested_class_clears_class_name (engine : RegExpEngine) :
  apply nested_class (rule [lengths None None None (Some 1) None]) =
    inr [MkRuleFailure 0 100
           "Max constructor body length exceeded in class undefined - max: 1, actual: 3"
           8]
  /\ apply class_expression (rule [lengths None None None (Some 1) None]) =
       inr [MkRuleFailure 0 100
              "Max constructor body length exceeded in class undefined - max: 1, actual: 3"
              2].
Proof. split; reflexivity. Qed.

Lemma too_long_iff_exceeds_threshold_witness :
  isFunctionTooLong
    (walkerFor method_foo (rule [lengths None None (Some 3) None None]))
    MethodDeclaration 5 = inr true.
Proof.
  destruct (too_long_iff_exceeds_threshold
              (walkerFor method_foo (rule [lengths None None (Some 3) None None]))
              MethodDeclaration 5 eq_refl)
    as [_ [flagged [Hrun [Hiff _]]]].
  rewrite Hrun; f_equal; apply Hiff.
  exists 3; split; [reflexivity | reflexivity].
Defined.

(** C4, as worded, fails: the text of the body of [f] is on one line, the
    second, but the body is measured from the line break before it and its
    length is 1. *)
Lemma body_on_next_line_has_length_one :
  calcBodyLength (walkerFor brace_on_next_line (rule [])) next_line_f = 1
  /\ ~ oneLineBodyIsZero (walkerFor brace_on_next_line (rule [])) next_line_f.
Proof.
  split; [reflexivity |].
  intros H; specialize (H next_line_body eq_refl eq_refl); discriminate H.
Qed.

Lemma body_length_counts_from_raw_start_witness :
  calcBodyLength (walkerFor brace_on_next_line (rule [])) next_line_f = 1 + 0
  /\ calcBodyLength (walkerFor method_foo (rule [])) bar = 0.
Proof.
  split.
  - destruct (body_length_counts_from_raw_start
                (walkerFor brace_on_next_line (rule [])) next_line_f
                next_line_body eq_refl) as [_ [H _]].
    + intros Hgt; discriminate Hgt.
    + intros Hgt; discriminate Hgt.
    + rewrite H; reflexivity.
  - destruct (body_length_counts_from_raw_start
                (walkerFor method_foo (rule [])) bar bar_body eq_refl)
      as [_ [_ H]].
    + intros Hgt; discriminate Hgt.
    + intros Hgt; discriminate Hgt.
    + apply H; simpl; intros s Hs.
      repeat (destruct Hs as [<- | Hs];
              [first [left; discriminate | right; reflexivity] |]).
      contradiction.
Defined.

(** C5, as worded, fails: with the fallback -1 the declaration of [f], which
    has no body and length 0, is reported. *)
Lemma negative_threshold_flags_bodiless_node :
  apply (engine := LiteralEngine) ambient_function (rule [OptNumber (-1)]) =
    inr [MkRuleFailure 0 100
           "Max function body length exceeded in function f() - max: -1, actual: 0"
           (nid ambient_f)]
  /\ ~ bodilessNeverFlagged (engine := LiteralEngine) ambient_function
         (rule [OptNumber (-1)]) ambient_f.
Proof.
  split; [reflexivity |].
  intros H.
  destruct (H (walkerFor ambient_function (rule [OptNumber (-1)]))
              eq_refl eq_refl eq_refl) as [_ Hv].
  discriminate Hv.
Qed.

Lemma bodiless_node_not_flagged_witness :
  calcBodyLength (walkerFor ambient_function (rule [OptNumber 50])) ambient_f = 0
  /\ validate ambient_f (walkerFor ambient_function (rule [OptNumber 50]))
     = inr (walkerFor ambient_function (rule [OptNumber 50])).
Proof.
  apply (bodiless_node_not_flagged
           (walkerFor ambient_function (rule [OptNumber 50])) ambient_f).
  - reflexivity.
  - reflexivity.
  - intros t Ht; injection Ht as <-; discriminate.
Defined.

Lemma message_has_fixed_shape_witness :
  formatFailureText (walkerFor method_foo (rule [lengths None None (Some 3) None None]))
    foo 5 =
    inr "Max method body length exceeded in method foo() - max: 3, actual: 5"
  /\ exists threshold,
       getMaxLength (walkerFor method_foo (rule [lengths None None (Some 3) None None]))
         (kind foo) = inr threshold
       /\ "Max method body length exceeded in method foo() - max: 3, actual: 5"
          = messageShape (kindLabel (kind foo))
              (placeClause
                 (walkerFor method_foo (rule [lengths None None (Some 3) None None]))
                 foo)
              threshold 5.
Proof.
  destruct (message_has_fixed_shape (engine := LiteralEngine)) as [Hshape Hfoo].
  split.
  - apply (Hfoo _ foo (leaf 4 Identifier "foo")); reflexivity.
  - destruct (Hshape (walkerFor method_foo (rule [lengths None None (Some 3) None None]))
                foo 5 _ eq_refl) as [threshold [Ht [Hm _]]].
    exists threshold; split; assumption.
Defined.

Lemma malformed_pattern_aborts_construction_witness :
  exists e,
    newWalker (engine := LiteralEngine) method_foo
      (rule [OptNumber 50; lengths None None None None (Some "(")]) = inl e
    /\ apply (engine := LiteralEngine) method_foo
         (rule [OptNumber 50; lengths None None None None (Some "(")]) = inl e
    /\ (~ In OptNull [OptNumber 50; lengths None None None None (Some "(")] ->
        exists r, e = SyntaxError r
                  /\ RegExp_new (RegExpEngine := LiteralEngine) r = None).
Proof.
  apply (malformed_pattern_aborts_construction (engine := LiteralEngine)
           method_foo
           (rule [OptNumber 50; lengths None None None None (Some "(")])
           (MkOptionsObject None None None None (Some "(")) "(").
  - right; left; reflexivity.
  - reflexivity.
  - discriminate.
  - reflexivity.
Defined.

Lemma unsupported_kind_is_fatal_witness :
  getFuncTypeText Block = inl (UnsupportedNodeKind Block)
  /\ getMaxLength (walkerFor method_foo (rule [OptNumber 50])) Block
     = inl (UnsupportedNodeKind Block).
Proof.
  apply (unsupported_kind_is_fatal (walkerFor method_foo (rule [OptNumber 50])) Block).
  reflexivity.
Defined.

Lemma emitted_failures_exceed_printed_max_witness :
  Forall (exceedsPrintedMax)
    [MkRuleFailure 0 100
       "Max method body length exceeded in method foo() - max: 3, actual: 5" 3].
Proof.
  apply (emitted_failures_exceed_printed_max (engine := LiteralEngine)
           method_foo (rule [lengths None None (Some 3) None None])).
  reflexivity.
Defined.

Lemma unnamed_class_throws_witness :
  (forall w, visitNode (engine := LiteralEngine) anonymous w = inl TypeError)
  /\ exists e, apply (engine := LiteralEngine) anonymous_class (rule [OptNumber 50])
               = inl e.
Proof.
  apply (unnamed_class_throws (engine := LiteralEngine) anonymous_class
           (rule [OptNumber 50]) anonymous).
  - simpl; right; left; reflexivity.
  - reflexivity.
  - reflexivity.
Defined.

(** ** Further properties on the sample trees *)

Lemma constructed_thresholds_last_entry_wins_witness :
  maxBodyLength (walkerFor method_foo layered_options) = Some 20
  /\ maxFuncBodyLength (walkerFor method_foo layered_options) = None
  /\ maxArrowBodyLength (walkerFor method_foo layered_options) = Some 9
  /\ maxMethodBodyLength (walkerFor method_foo layered_options) = None
  /\ maxCtorBodyLength (walkerFor method_foo layered_options) = None.
Proof.
  destruct (constructed_thresholds_last_entry_wins method_foo layered_options
              (walkerFor method_foo layered_options) eq_refl)
    as [Hb [Hf [Ha [Hm [Hc _]]]]].
  rewrite Hb, Hf, Ha, Hm, Hc; repeat split; reflexivity.
Defined.

Lemma constructed_pattern_is_last_nonempty_witness :
  exists r,
    RegExp_new (RegExpEngine := LiteralEngine) "describe" = Some r
    /\ ignoreParametersToFunctionRegex (walkerFor method_foo layered_options)
       = Some r.
Proof.
  exact (constructed_pattern_is_last_nonempty method_foo layered_options
           (walkerFor method_foo layered_options) eq_refl).
Defined.

Lemma visit_keeps_configuration_and_failures_witness :
  sameConfiguration (walkerFor describe_nested describe_options)
    (after describe_call (walkerFor describe_nested describe_options))
  /\ exists new,
       failures (after describe_call
                   (walkerFor describe_nested describe_options))
       = (failures (walkerFor describe_nested describe_options) ++ new)%list.
Proof.
  apply (visit_keeps_configuration_and_failures describe_call
           (walkerFor describe_nested describe_options)).
  reflexivity.
Defined.

Lemma visit_restores_suppression_list_witness :
  ignoreNodes (after describe_call (walkerFor describe_nested describe_options))
  = ignoreNodes (walkerFor describe_nested describe_options).
Proof.
  apply (visit_restores_suppression_list describe_call
           (walkerFor describe_nested describe_options)).
  - intros i Hi; destruct Hi.
  - reflexivity.
Defined.

Lemma body_length_not_negative_witness :
  0 <= calcBodyLength (walkerFor method_foo (rule [])) foo.
Proof.
  apply (body_length_not_negative (walkerFor method_foo (rule [])) foo).
  intros b Hb; injection Hb as <-; intros Hgt; discriminate Hgt.
Defined.

Lemma analysis_throws_only_type_or_syntax_errors_witness :
  TypeError = TypeError
  \/ exists opt regex,
       In opt [OptNumber 50] /\ patternOf opt = Some regex
       /\ RegExp_new (RegExpEngine := LiteralEngine) regex = None
       /\ TypeError = SyntaxError regex.
Proof.
  apply (analysis_throws_only_type_or_syntax_errors (engine := LiteralEngine)
           anonymous_class (rule [OptNumber 50]) TypeError).
  reflexivity.
Defined.

Lemma walk_of_named_tree_succeeds_witness :
  exists w',
    visitNode (root method_foo)
      (walkerFor method_foo (rule [lengths None None (Some 3) None None])) = inr w'.
Proof.
  apply (walk_of_named_tree_succeeds (root method_foo)
           (walkerFor method_foo (rule [lengths None None (Some 3) None None]))).
  reflexivity.
Defined.

Lemma every_failure_reports_a_too_long_node_witness :
  exists w,
    newWalker (engine := LiteralEngine) method_foo
      (rule [lengths None None (Some 3) None None]) = inr w
    /\ Forall (fun f => exists d, In d (descendants (root method_foo))
                                  /\ reportOf w d f)
         [MkRuleFailure 0 100
            "Max method body length exceeded in method foo() - max: 3, actual: 5"
            3].
Proof.
  apply (every_failure_reports_a_too_long_node (engine := LiteralEngine)
           method_foo (rule [lengths None None (Some 3) None None])).
  reflexivity.
Defined.

Lemma too_long_unsuppressed_node_is_reported_witness :
  exists f,
    In f [MkRuleFailure 0 100
            "Max function body length exceeded in function inner() - max: 1, actual: 4"
            (nid inner)]
    /\ reportsSpanOf
         (walkerFor describe_nested
            (disabled_elsewhere
               [OptNumber 1; lengths None None None None (Some "describe")]))
         inner f.
Proof.
  apply (too_long_unsuppressed_node_is_reported (engine := LiteralEngine)
           describe_nested
           (disabled_elsewhere
              [OptNumber 1; lengths None None None None (Some "describe")])
           _
           (walkerFor describe_nested
              (disabled_elsewhere
                 [OptNumber 1; lengths None None None None (Some "describe")]))
           inner 1).
  - reflexivity.
  - reflexivity.
  - simpl; repeat (first [left; reflexivity | right]).
  - reflexivity.
  - reflexivity.
  - reflexivity.
  - reflexivity.
  - intros [call [a [Hin [Hk [_ [Ha Hi]]]]]].
    simpl in Hin.
    repeat (destruct Hin as [<- | Hin]; [try discriminate Hk |]);
      try contradiction.
    simpl in Ha; destruct Ha as [<- | [<- | []]]; discriminate Hi.
Defined.

Lemma no_node_is_reported_twice_witness :
  NoDup (map failureNode
           [MkRuleFailure 0 100
              "Max method body length exceeded in method foo() - max: 3, actual: 5"
              3]).
Proof.
  apply (no_node_is_reported_twice (engine := LiteralEngine) method_foo
           (rule [lengths None None (Some 3) None None])).
  - simpl; repeat constructor; simpl; intuition discriminate.
  - reflexivity.
Defined.

Lemma constructor_reports_its_class_witness :
  exists f,
    In f (failures (after plain_A
                      (walkerFor plain_class
                         (disabled_elsewhere
                            [lengths None None None (Some 1) None]))))
    /\ startPosition f = getStart plain_ctor
    /\ width f = getWidth plain_ctor
    /\ failure f =
         "Max constructor body length exceeded in class A - max: 1, actual: 3".
Proof.
  apply (constructor_reports_its_class plain_A plain_ctor
           (leaf 2 Identifier "A")
           [(RName, leaf 2 Identifier "A"); (RChild, plain_m)] [] RChild
           (walkerFor plain_class
              (disabled_elsewhere [lengths None None None (Some 1) None]))
           (after plain_A
              (walkerFor plain_class
                 (disabled_elsewhere [lengths None None None (Some 1) None])))
           1).
  - reflexivity.
  - reflexivity.
  - reflexivity.
  - reflexivity.
  - intros p d Hp Hd Hk.
    destruct Hp as [<- | [<- | []]]; simpl in Hd;
      repeat (destruct Hd as [<- | Hd]; [discriminate Hk |]);
      contradiction.
  - intros Hin; destruct Hin.
  - reflexivity.
  - reflexivity.
  - reflexivity.
  - reflexivity.
Defined.

Lemma no_threshold_no_failure_witness :
  apply (engine := LiteralEngine) method_foo
    (rule [lengths None None (Some 0) None (Some "describe")]) = inr [].
Proof.
  assert (H : forall fs,
             apply (engine := LiteralEngine) method_foo
               (rule [lengths None None (Some 0) None (Some "describe")]) = inr fs ->
             fs = []).
  { intros fs; apply no_threshold_no_failure.
    - reflexivity.
    - intros o Ho; injection Ho as <-; repeat split; reflexivity. }
  destruct (apply (engine := LiteralEngine) method_foo
              (rule [lengths None None (Some 0) None (Some "describe")]))
    as [e | fs] eqn:Hrun; [discriminate Hrun |].
  rewrite (H fs eq_refl); reflexivity.
Defined.

Lemma no_function_like_node_no_failure_witness :
  apply (engine := LiteralEngine) no_functions (rule [OptNumber 0]) = inr [].
Proof.
  assert (H : forall fs,
             apply (engine := LiteralEngine) no_functions (rule [OptNumber 0])
             = inr fs -> fs = []).
  { intros fs; apply no_function_like_node_no_failure.
    intros d Hd; simpl in Hd.
    repeat (destruct Hd as [<- | Hd]; [reflexivity |]); contradiction. }
  destruct (apply (engine := LiteralEngine) no_functions (rule [OptNumber 0]))
    as [e | fs] eqn:Hrun; [discriminate Hrun |].
  rewrite (H fs eq_refl); reflexivity.
Defined.

(** With the rule disabled from offset 40 to offset 60, inside the span of
    [foo], the failure for [foo] is not recorded; equal failures are recorded
    once. *)
Example disabled_interval_hides_failure :
  apply (engine := LiteralEngine) method_foo
    (MkOptions [lengths None None (Some 3) None None]
       [MkDisabledInterval 40 60]) = inr []
  /\ failures
       (addFailure (MkRuleFailure 0 100 "m" 1)
          (addFailure (MkRuleFailure 0 100 "m" 2)
             (walkerFor method_foo (rule []))))
     = [MkRuleFailure 0 100 "m" 2].
Proof. split; reflexivity. Qed.
